(** * DNSChat: the TTL cache, the in-flight request registry and the TXT chunker

    A shallow embedding of [main.go]:
    - [getCache] / [setCache]: the process-wide response cache with lazy expiry;
    - [chunkString]: splitting a response into TXT-record sized pieces on rune
      boundaries, with [utf8.DecodeRuneInString] of the Go standard library;
      characters are the well-formed UTF-8 sequences of the Unicode Standard
      ([encodedChar]);
    - [getOrCreateLLMRequest]: the cache look-up followed by the in-flight
      registry protocol (leader / waiter).  One goroutine is a control point
      [pc] moved by [step]; [getOrCreateLLMRequest] runs one goroutine alone,
      and [exec] runs any number of them under a schedule, one line at a
      time.  Both maps are only touched under their mutex and the channels
      are only closed and received from, so interleaving the lines is all
      the concurrency there is.
    - [cleanResponse], with [strings.ReplaceAll] of the Go standard library;
    - [getLLMResponse]: the request it builds (with what [json.Marshal]
      makes of a string) and what it reads from the decoded reply, the
      network being a function from requests to replies;
    - [handleDNSRequest] / [ServeDNS]: the reply written for a request, with
      the fields of [dns.Msg] the handler reads or writes.

    The first part holds the definitions, the second the proofs. *)

From Stdlib Require Import ZArith List Lia Bool.
From Stdlib Require Import Strings.Byte Strings.String.
From stdpp Require Import base option list countable gmap.

Local Open Scope Z_scope.

(** ** Go strings

    A Go [string] is an immutable sequence of bytes; [len], slicing and
    [append] all count bytes. *)

Definition gostring : Type := list byte.

Definition golit (s : String.string) : gostring := list_byte_of_string s.

#[global] Instance byte_eq_dec : EqDecision byte := Byte.byte_eq_dec.

#[global] Program Instance byte_countable : Countable byte :=
  inj_countable Byte.to_N Byte.of_N _.
Next Obligation. intros b. apply Byte.of_to_N. Qed.

Definition byteZ (b : byte) : Z := Z.of_N (Byte.to_N b).

(** ** unicode/utf8: [DecodeRuneInString]

    The decoder of the Go standard library, which [chunkString] calls to find
    the width of the rune at the head of [s[i:]].  Its [first] array is given
    here by the ranges that fill it. *)

Module utf8.

Definition RuneError : Z := 0xFFFD.

Definition maskx : Z := 0x3F.
Definition mask2 : Z := 0x1F.
Definition mask3 : Z := 0x0F.
Definition mask4 : Z := 0x07.

Definition locb : Z := 0x80.
Definition hicb : Z := 0xBF.

Definition xx : Z := 0xF1.
Definition as_ : Z := 0xF0.
Definition s1 : Z := 0x02.
Definition s2 : Z := 0x13.
Definition s3 : Z := 0x03.
Definition s4 : Z := 0x23.
Definition s5 : Z := 0x34.
Definition s6 : Z := 0x04.
Definition s7 : Z := 0x44.

(** [first[b]]: information about the first byte of an encoding. *)
Definition first (b : byte) : Z :=
  let n := byteZ b in
  if n <? 0x80 then as_
  else if n <? 0xC2 then xx
  else if n <? 0xE0 then s1
  else if n =? 0xE0 then s2
  else if n <? 0xED then s3
  else if n =? 0xED then s4
  else if n <? 0xF0 then s3
  else if n =? 0xF0 then s5
  else if n <? 0xF4 then s6
  else if n =? 0xF4 then s7
  else xx.

Record acceptRange := { lo : Z; hi : Z }.

(** [acceptRanges] has 16 entries; those past the fifth are zero. *)
Definition acceptRanges (k : Z) : acceptRange :=
  if k =? 0 then {| lo := locb; hi := hicb |}
  else if k =? 1 then {| lo := 0xA0; hi := hicb |}
  else if k =? 2 then {| lo := locb; hi := 0x9F |}
  else if k =? 3 then {| lo := 0x90; hi := hicb |}
  else if k =? 4 then {| lo := locb; hi := 0x8F |}
  else {| lo := 0; hi := 0 |}.

(** [DecodeRuneInString(s)] returns the rune and its width in bytes. *)
Definition DecodeRuneInString (s : gostring) : Z * nat :=
  match s with
  | [] => (RuneError, 0%nat)
  | b0 :: _ =>
    let n := length s in
    let s0 := byteZ b0 in
    let x := first b0 in
    if as_ <=? x then
      (* mask := rune(x) << 31 >> 31 is all ones exactly when x is odd (xx) *)
      (if Z.odd x then RuneError else s0, 1%nat)
    else
      let sz := Z.to_nat (Z.land x 7) in
      let accept := acceptRanges (Z.shiftr x 4) in
      if (n <? sz)%nat then (RuneError, 1%nat)
      else
        match s with
        | _ :: b1 :: t1 =>
          let c1 := byteZ b1 in
          if (c1 <? lo accept) || (hi accept <? c1) then (RuneError, 1%nat)
          else if (sz <=? 2)%nat then
            (Z.lor (Z.shiftl (Z.land s0 mask2) 6) (Z.land c1 maskx), 2%nat)
          else
            match t1 with
            | b2 :: t2 =>
              let c2 := byteZ b2 in
              if (c2 <? locb) || (hicb <? c2) then (RuneError, 1%nat)
              else if (sz <=? 3)%nat then
                (Z.lor (Z.lor (Z.shiftl (Z.land s0 mask3) 12)
                              (Z.shiftl (Z.land c1 maskx) 6))
                       (Z.land c2 maskx), 3%nat)
              else
                match t2 with
                | b3 :: _ =>
                  let c3 := byteZ b3 in
                  if (c3 <? locb) || (hicb <? c3) then (RuneError, 1%nat)
                  else
                    (Z.lor (Z.lor (Z.lor (Z.shiftl (Z.land s0 mask4) 18)
                                         (Z.shiftl (Z.land c1 maskx) 12))
                                  (Z.shiftl (Z.land c2 maskx) 6))
                           (Z.land c3 maskx), 4%nat)
                | [] => (RuneError, 1%nat)
                end
            | [] => (RuneError, 1%nat)
            end
        | _ => (RuneError, 1%nat)
        end
  end.

End utf8.

(** ** [chunkString]

    The loop state is the index [i], the chunks closed so far and the buffer
    being filled.  [len(buf)+sz] cannot overflow an [int]: [buf] followed by
    the rune at [i] is a part of [s]. *)

Record chunkState := mkChunkState {
  ci : nat;
  cchunks : list gostring;
  cbuf : list byte
}.

(** One iteration of the [for] loop body (lines 61-68). *)
Definition chunkBody (s : gostring) (chunkSize : Z) (st : chunkState) : chunkState :=
  let sz := snd (utf8.DecodeRuneInString (drop (ci st) s)) in
  let '(chunks, buf) :=
    if Z.of_nat (length (cbuf st)) + Z.of_nat sz >? chunkSize
    then (cchunks st ++ [cbuf st], [])
    else (cchunks st, cbuf st) in
  {| ci := ci st + sz;
     cchunks := chunks;
     cbuf := buf ++ take sz (drop (ci st) s) |}.

(** [for i := 0; i < len(s); { body }], with the iteration count as fuel. *)
Fixpoint chunkLoop (fuel : nat) (s : gostring) (chunkSize : Z) (st : chunkState)
  : chunkState :=
  match fuel with
  | O => st
  | S fuel' =>
    if (ci st <? length s)%nat
    then chunkLoop fuel' s chunkSize (chunkBody s chunkSize st)
    else st
  end.

Definition chunkInit : chunkState := {| ci := 0; cchunks := []; cbuf := [] |}.

(** Every iteration consumes at least one byte, so [len(s)] iterations are
    enough (see [chunkLoop_exits]). *)
Definition chunkString (s : gostring) (chunkSize : Z) : list gostring :=
  let st := chunkLoop (length s) s chunkSize chunkInit in
  if (0 <? length (cbuf st))%nat then cchunks st ++ [cbuf st] else cchunks st.

(** The runes of [s] as the decoder delimits them: the successive slices
    [s[i:i+sz]] the loop of [chunkString] walks over. *)
Fixpoint runesFrom (fuel : nat) (s : gostring) : list gostring :=
  match fuel with
  | O => []
  | S fuel' =>
    match s with
    | [] => []
    | _ => let sz := snd (utf8.DecodeRuneInString s) in
           take sz s :: runesFrom fuel' (drop sz s)
    end
  end.

Definition runes (s : gostring) : list gostring := runesFrom (length s) s.

(** Width of the first rune of [s]. *)
Definition firstWidth (s : gostring) : nat := snd (utf8.DecodeRuneInString s).

(** The rune read at index [i] of [s]: the slice [s[i:i+sz]]. *)
Definition runeAt (s : gostring) (i : nat) : gostring :=
  take (firstWidth (drop i s)) (drop i s).

(** A chunk, seen as the runes it is made of, respects the size limit when
    its bytes fit in [chunkSize], or when it is one rune that alone is wider
    than [chunkSize]. *)
Definition okGroup (chunkSize : Z) (g : list gostring) : Prop :=
  Z.of_nat (length (concat g)) ≤ chunkSize ∨
  ∃ r, g = [r] ∧ chunkSize < Z.of_nat (length r).

(** Loop invariants of [chunkString], each on the state between two
    iterations. *)

(** The chunks and the buffer are groups of whole runes of [s], in order. *)
Definition groupInv (s : gostring) (chunkSize : Z) (st : chunkState) : Prop :=
  ∃ (gs : list (list gostring)) (g : list gostring),
    cchunks st = map (@concat byte) gs ∧
    cbuf st = concat g ∧
    concat gs ++ g ++ runes (drop (ci st) s) = runes s ∧
    (0 ≤ chunkSize → Forall (okGroup chunkSize) gs ∧ okGroup chunkSize g).


(** When the first rune fits, no chunk is empty. *)
Definition fitsInv (st : chunkState) : Prop :=
  Forall (λ c, c ≠ []) (cchunks st) ∧ (st = chunkInit ∨ cbuf st ≠ []).


(** ** Encoded characters

    What the specification calls a character: a well-formed UTF-8 byte
    sequence, as the Unicode Standard lists them (table 3-7, "Well-formed
    UTF-8 byte sequences").  The definition follows the table and does not
    use the decoder. *)

Definition between (lo hi : Z) (b : byte) : bool :=
  (lo <=? byteZ b) && (byteZ b <=? hi).

Definition encodedChar (c : gostring) : bool :=
  match c with
  | [b0] => between 0x00 0x7F b0
  | [b0; b1] => between 0xC2 0xDF b0 && between 0x80 0xBF b1
  | [b0; b1; b2] =>
    (between 0xE0 0xE0 b0 && between 0xA0 0xBF b1
     || between 0xE1 0xEC b0 && between 0x80 0xBF b1
     || between 0xED 0xED b0 && between 0x80 0x9F b1
     || between 0xEE 0xEF b0 && between 0x80 0xBF b1)
    && between 0x80 0xBF b2
  | [b0; b1; b2; b3] =>
    (between 0xF0 0xF0 b0 && between 0x90 0xBF b1
     || between 0xF1 0xF3 b0 && between 0x80 0xBF b1
     || between 0xF4 0xF4 b0 && between 0x80 0x8F b1)
    && between 0x80 0xBF b2 && between 0x80 0xBF b3
  | _ => false
  end.

(** ** The response cache

    [time.Time] is an instant and [time.Duration] a count of nanoseconds.
    The process-wide variables of [main.go] are the fields of [World]; the
    reading of [time.Now()] is the field [now], which only the environment
    advances. *)

Definition Time : Type := Z.
Definition Duration : Type := Z.

Definition Hour : Duration := 3600 * 1000000000.
Definition cacheDuration : Duration := 1 * Hour.

Record cacheEntry := mkCacheEntry {
  response : gostring;
  expiresAt : Time
}.

(** A [chan bool] made by [make] is known by its identity; nothing is ever
    sent on these channels, they are only closed. *)
Definition chan : Type := nat.

Record World := mkWorld {
  now : Time;
  cache : gmap gostring cacheEntry;
  inFlightRequests : gmap gostring chan;
  inFlightLocked : bool;          (* inFlightMutex is held *)
  closed : gset chan;             (* channels on which close was called *)
  nextChan : chan;                (* identity of the next channel make returns *)
  llmCalls : list gostring        (* the calls of getLLMResponse so far *)
}.

Definition emptyWorld (t : Time) : World :=
  {| now := t; cache := ∅; inFlightRequests := ∅; inFlightLocked := false;
     closed := ∅; nextChan := 0%nat; llmCalls := [] |}.

Definition withCache (w : World) (c : gmap gostring cacheEntry) : World :=
  {| now := now w; cache := c; inFlightRequests := inFlightRequests w;
     inFlightLocked := inFlightLocked w; closed := closed w;
     nextChan := nextChan w; llmCalls := llmCalls w |}.

Definition withInFlight (w : World) (m : gmap gostring chan) : World :=
  {| now := now w; cache := cache w; inFlightRequests := m;
     inFlightLocked := inFlightLocked w; closed := closed w;
     nextChan := nextChan w; llmCalls := llmCalls w |}.

Definition withLocked (w : World) (b : bool) : World :=
  {| now := now w; cache := cache w; inFlightRequests := inFlightRequests w;
     inFlightLocked := b; closed := closed w;
     nextChan := nextChan w; llmCalls := llmCalls w |}.

Definition withNow (w : World) (t : Time) : World :=
  {| now := t; cache := cache w; inFlightRequests := inFlightRequests w;
     inFlightLocked := inFlightLocked w; closed := closed w;
     nextChan := nextChan w; llmCalls := llmCalls w |}.

(** [getCache]: the map read and the expiry test happen under
    [CacheMutex.RLock], so the function is one atomic read of the world. *)
Definition getCache (q : gostring) (w : World) : gostring * bool :=
  match cache w !! q with
  | Some res =>
    if now w <? expiresAt res then (response res, true) else ([], false)
  | None => ([], false)
  end.

(** [setCache]: one atomic write under [CacheMutex.Lock]. *)
Definition setCache (q res : gostring) (w : World) : World :=
  withCache w
    (<[q := {| response := res; expiresAt := now w + cacheDuration |}]> (cache w)).

(** ** [getOrCreateLLMRequest]

    A Go [error] built by [errors.New] is known by its message; [nil] is
    [None]. *)

Inductive error := errorString (msg : gostring).

Module errors.
Definition New (msg : String.string) : error := errorString (golit msg).
End errors.

(** [getLLMResponse] talks to a remote service.  It is a parameter: the
    reply it gives to its [n]-th call (counting from 0) for the query [q],
    as the pair [(string, error)] the Go function returns. *)
Definition LLM : Type := nat → gostring → gostring * option error.

(** Control points of one goroutine running [getOrCreateLLMRequest(q)],
    named by the line of [main.go] about to be executed, with the local
    variables live there.  Lines under [inFlightMutex] are separate points;
    the mutex itself is [inFlightLocked]. *)
Inductive pc :=
| L134                                  (* response, ok := getCache(q)        *)
| L140                                  (* inFlightMutex.Lock()               *)
| L141                                  (* ch, ok := inFlightRequests[q]      *)
| L143 (ch : chan)                      (* inFlightMutex.Unlock()             *)
| L146 (ch : chan)                      (* <-ch                               *)
| L147 (ch : chan)                      (* response, ok := getCache(q); ...   *)
| L155                                  (* ch = make(...); inFlightRequests[q] = ch *)
| L157 (ch : chan)                      (* inFlightMutex.Unlock()             *)
| L159 (ch : chan)                      (* response, err := getLLMResponse(q) *)
| L163 (ch : chan) (err : error)        (* close(ch); return "", err          *)
| L170 (ch : chan) (resp : gostring)    (* setCache(q, response)              *)
| L171 (ch : chan) (resp : gostring)    (* inFlightMutex.Lock()               *)
| L172 (ch : chan) (resp : gostring)    (* delete(inFlightRequests, q)        *)
| L173 (ch : chan) (resp : gostring)    (* inFlightMutex.Unlock()             *)
| L176 (ch : chan) (resp : gostring)    (* close(ch); return response, nil    *)
| Return (resp : gostring) (err : option error)
| Panic.                                (* run-time panic of the Go runtime   *)

(** [sync.Mutex.Unlock]: fatal when the mutex is not locked. *)
Definition unlockThen (p : pc) (w : World) : option (pc * World) :=
  if inFlightLocked w then Some (p, withLocked w false) else Some (Panic, w).

(** [sync.Mutex.Lock]: waits while the mutex is held. *)
Definition lockThen (p : pc) (w : World) : option (pc * World) :=
  if inFlightLocked w then None else Some (p, withLocked w true).

(** [close(ch)]: panics on a channel that is closed already. *)
Definition closeChan (ch : chan) (w : World) : World :=
  {| now := now w; cache := cache w; inFlightRequests := inFlightRequests w;
     inFlightLocked := inFlightLocked w; closed := {[ ch ]} ∪ closed w;
     nextChan := nextChan w; llmCalls := llmCalls w |}.

Definition closeThen (ch : chan) (p : pc) (w : World) : option (pc * World) :=
  if decide (ch ∈ closed w) then Some (Panic, w) else Some (p, closeChan ch w).

(** [ch = make(chan bool); inFlightRequests[q] = ch] *)
Definition register (q : gostring) (w : World) : chan * World :=
  let ch := nextChan w in
  (ch, {| now := now w; cache := cache w;
          inFlightRequests := <[q := ch]> (inFlightRequests w);
          inFlightLocked := inFlightLocked w; closed := closed w;
          nextChan := S (nextChan w); llmCalls := llmCalls w |}).

Definition logCall (q : gostring) (w : World) : World :=
  {| now := now w; cache := cache w; inFlightRequests := inFlightRequests w;
     inFlightLocked := inFlightLocked w; closed := closed w;
     nextChan := nextChan w; llmCalls := llmCalls w ++ [q] |}.

Section Resolver.

Variable getLLMResponse : LLM.

(** One step of a goroutine serving the query [q].  [None]: the goroutine
    cannot move (it waits for the mutex or for the channel, or it is
    done). *)
Definition step (q : gostring) (p : pc) (w : World) : option (pc * World) :=
  match p with
  | L134 =>
    let '(response, ok) := getCache q w in
    Some (if ok then Return response None else L140, w)
  | L140 => lockThen L141 w
  | L141 =>
    match inFlightRequests w !! q with
    | Some ch => Some (L143 ch, w)
    | None => Some (L155, w)
    end
  | L143 ch => unlockThen (L146 ch) w
  | L146 ch => if decide (ch ∈ closed w) then Some (L147 ch, w) else None
  | L147 ch =>
    let '(response, ok) := getCache q w in
    Some (if ok then Return response None
          else Return [] (Some (errors.New "upstream generation failed")), w)
  | L155 => let '(ch, w') := register q w in Some (L157 ch, w')
  | L157 ch => unlockThen (L159 ch) w
  | L159 ch =>
    let '(response, err) := getLLMResponse (length (llmCalls w)) q in
    Some (match err with
          | Some e => L163 ch e
          | None => L170 ch response
          end, logCall q w)
  | L163 ch e => closeThen ch (Return [] (Some e)) w
  | L170 ch response => Some (L171 ch response, setCache q response w)
  | L171 ch response => lockThen (L172 ch response) w
  | L172 ch response =>
    Some (L173 ch response, withInFlight w (delete q (inFlightRequests w)))
  | L173 ch response => unlockThen (L176 ch response) w
  | L176 ch response => closeThen ch (Return response None) w
  | Return _ _ => None
  | Panic => None
  end.

(** How a call ends when the goroutine runs with nothing else scheduled. *)
Inductive outcome :=
| Returned (resp : gostring) (err : option error) (w : World)
| Blocked (p : pc) (w : World)      (* waits for something nobody will do *)
| Panicked (w : World)
| OutOfFuel.

Fixpoint runAlone (fuel : nat) (q : gostring) (p : pc) (w : World) : outcome :=
  match p with
  | Return r e => Returned r e w
  | Panic => Panicked w
  | _ =>
    match fuel with
    | O => OutOfFuel
    | S fuel' =>
      match step q p w with
      | Some (p', w') => runAlone fuel' q p' w'
      | None => Blocked p w
      end
    end
  end.

(** A whole call of [getOrCreateLLMRequest(q)] with no other goroutine
    running: the longest path (the leader's success path) has 11 steps. *)
Definition getOrCreateLLMRequest (q : gostring) (w : World) : outcome :=
  runAlone 11 q L134 w.

(** *** Interleavings

    A configuration is the world and the goroutines in flight, each with
    its query and control point.  A schedule picks, event by event, which
    goroutine moves, or lets time pass; a goroutine that cannot move
    leaves the configuration as it is. *)
Record config := mkConfig {
  world : World;
  goroutines : list (gostring * pc)
}.

Inductive event :=
| Run (i : nat)
| Tick (d : Duration).

Definition exec1 (c : config) (e : event) : config :=
  match e with
  | Tick d =>
    if 0 <=? d
    then {| world := withNow (world c) (now (world c) + d);
            goroutines := goroutines c |}
    else c
  | Run i =>
    match goroutines c !! i with
    | Some (q, p) =>
      match step q p (world c) with
      | Some (p', w') =>
        {| world := w'; goroutines := <[i := (q, p')]> (goroutines c) |}
      | None => c
      end
    | None => c
    end
  end.

Definition exec (sched : list event) (c : config) : config :=
  fold_left exec1 sched c.

End Resolver.

(** Goroutines that have just been started for the queries [qs]. *)
Definition spawn (qs : list gostring) : list (gostring * pc) :=
  map (λ q, (q, L134)) qs.

Definition initial (t : Time) (qs : list gostring) : config :=
  {| world := emptyWorld t; goroutines := spawn qs |}.

(** *** Worlds met on the leader's path *)

(** The world when the leader is about to call [getLLMResponse]. *)
Definition registered (q : gostring) (w : World) : World :=
  {| now := now w; cache := cache w;
     inFlightRequests := <[q := nextChan w]> (inFlightRequests w);
     inFlightLocked := false; closed := closed w;
     nextChan := S (nextChan w); llmCalls := llmCalls w |}.

(** The world a leader leaves behind when [getLLMResponse] answered [r]. *)
Definition afterSuccess (q r : gostring) (w : World) : World :=
  {| now := now w;
     cache := <[q := {| response := r; expiresAt := now w + cacheDuration |}]> (cache w);
     inFlightRequests := delete q (inFlightRequests w);
     inFlightLocked := false;
     closed := {[ nextChan w ]} ∪ closed w;
     nextChan := S (nextChan w);
     llmCalls := llmCalls w ++ [q] |}.

(** The world a leader leaves behind when [getLLMResponse] failed. *)
Definition afterFailure (q : gostring) (w : World) : World :=
  {| now := now w;
     cache := cache w;
     inFlightRequests := <[q := nextChan w]> (inFlightRequests w);
     inFlightLocked := false;
     closed := {[ nextChan w ]} ∪ closed w;
     nextChan := S (nextChan w);
     llmCalls := llmCalls w ++ [q] |}.

(** *** Invariants of the interleavings *)

(** The goroutine is inside the critical section of [inFlightMutex]. *)
Definition inCS (p : pc) : Prop :=
  match p with
  | L141 | L143 _ | L155 | L157 _ | L172 _ _ | L173 _ _ => True
  | _ => False
  end.

(** The goroutine made the channel [ch] and has not closed it yet. *)
Definition owns (p : pc) (ch : chan) : Prop :=
  match p with
  | L157 c | L159 c | L163 c _ | L170 c _ | L171 c _ | L172 c _ | L173 c _
  | L176 c _ => c = ch
  | _ => False
  end.

(** The goroutine put [ch] in the registry and has not reached the line
    that takes it out (a leader whose request failed never does). *)
Definition holds (p : pc) (ch : chan) : Prop :=
  match p with
  | L157 c | L159 c | L163 c _ | L170 c _ | L171 c _ | L172 c _ => c = ch
  | _ => False
  end.

(** The same with the channel left out, as a test. *)
Definition leading (p : pc) : bool :=
  match p with
  | L157 _ | L159 _ | L163 _ _ | L170 _ _ | L171 _ _ | L172 _ _ => true
  | _ => false
  end.

Definition panicked (p : pc) : bool :=
  match p with
  | Panic => true
  | _ => false
  end.

Record wf (c : config) : Prop := mkWf {
  wf_lock : ∀ i q p,
    goroutines c !! i = Some (q, p) → inCS p → inFlightLocked (world c) = true;
  wf_mutex : ∀ i j q p q' p',
    goroutines c !! i = Some (q, p) → goroutines c !! j = Some (q', p') →
    inCS p → inCS p' → i = j;
  wf_fresh : ∀ i q p ch,
    goroutines c !! i = Some (q, p) → owns p ch → (ch < nextChan (world c))%nat;
  wf_closed : ∀ ch, ch ∈ closed (world c) → (ch < nextChan (world c))%nat;
  wf_owner : ∀ i j q p q' p' ch,
    goroutines c !! i = Some (q, p) → goroutines c !! j = Some (q', p') →
    owns p ch → owns p' ch → i = j;
  wf_open : ∀ i q p ch,
    goroutines c !! i = Some (q, p) → owns p ch → ch ∉ closed (world c);
  wf_slot : ∀ i q p ch,
    goroutines c !! i = Some (q, p) → holds p ch →
    inFlightRequests (world c) !! q = Some ch;
  wf_absent : ∀ i q,
    goroutines c !! i = Some (q, L155) → inFlightRequests (world c) !! q = None;
  wf_nopanic : ∀ i q p, goroutines c !! i = Some (q, p) → p ≠ Panic
}.



(** The slot of [q] holds the channel [ch], which is closed. *)
Definition poisoned (q : gostring) (ch : chan) (c : config) : Prop :=
  inFlightRequests (world c) !! q = Some ch ∧ ch ∈ closed (world c).

(** *** Sample remote services and schedules *)

(** Fails on its first call and answers from then on. *)
Definition failThenAnswer : LLM := λ n q,
  match n with
  | O => ([], Some (errors.New "boom"))
  | S _ => (golit "answer", None)
  end.

Definition alwaysAnswer : LLM := λ n q, (golit "answer", None).

(** Answers "one" to its first call and "two" to the others. *)
Definition answerInTurn : LLM := λ n q,
  match n with
  | O => (golit "one", None)
  | S _ => (golit "two", None)
  end.

(** Goroutine 1 leads and gets its answer (6 steps, up to line 170);
    goroutine 0 arrives and misses the cache (line 134); goroutine 1 commits,
    removes its slot, closes its channel and returns (5 steps); goroutine 0
    goes on from line 140 (10 steps). *)
Definition staleMiss : list event :=
  repeat (Run 1) 6 ++ [Run 0] ++ repeat (Run 1) 5 ++ repeat (Run 0) 10.

(** ** [strings.ReplaceAll] and [cleanResponse]

    [strings.ReplaceAll(s, old, new)] of the Go standard library replaces
    the non-overlapping occurrences of [old], leftmost first.  With an empty
    [old] it puts [new] in front of the string and after each rune. *)

Module strings.

Definition HasPrefix (s prefix : gostring) : bool :=
  bool_decide (take (length prefix) s = prefix).

Fixpoint replaceFrom (fuel : nat) (s old new : gostring) : gostring :=
  match fuel with
  | O => s
  | S fuel' =>
    match s with
    | [] => []
    | b :: t =>
      if HasPrefix s old
      then new ++ replaceFrom fuel' (drop (length old) s) old new
      else b :: replaceFrom fuel' t old new
    end
  end.

Definition ReplaceAll (s old new : gostring) : gostring :=
  if bool_decide (old = new) then s
  else
    match old with
    | [] => new ++ concat (map (λ r, r ++ new) (runes s))
    | _ => replaceFrom (length s) s old new
    end.

End strings.

Definition LF : byte := Byte.x0a.     (* "\n" *)
Definition CR : byte := Byte.x0d.     (* "\r" *)
Definition SP : byte := Byte.x20.     (* " "  *)

Definition cleanResponse (text : gostring) : gostring :=
  let text := strings.ReplaceAll text [LF] [SP] in
  let text := strings.ReplaceAll text [CR] [SP] in
  text.

(** What [cleanResponse] does to one byte. *)
Definition cleanByte (b : byte) : byte :=
  if bool_decide (b = LF) then SP else if bool_decide (b = CR) then SP else b.

(** ** encoding/json: strings

    [json.Marshal] writes a Go string as a JSON string.  Its escapes are
    undone by whoever reads the JSON, except one: the encoder walks the
    string rune by rune with [utf8.DecodeRuneInString] and writes U+FFFD for
    each byte that does not start a valid encoding
    ([c == utf8.RuneError && size == 1]).  [stringValue s] is the string a
    reader of the JSON gets for [s]. *)

Module json.

(** U+FFFD in UTF-8. *)
Definition replacement : gostring := [Byte.xef; Byte.xbf; Byte.xbd].

Fixpoint validFrom (fuel : nat) (s : gostring) : gostring :=
  match fuel with
  | O => []
  | S fuel' =>
    match s with
    | [] => []
    | _ =>
      let '(c, size) := utf8.DecodeRuneInString s in
      (if (c =? utf8.RuneError) && (size =? 1)%nat then replacement else take size s)
        ++ validFrom fuel' (drop size s)
    end
  end.

Definition stringValue (s : gostring) : gostring := validFrom (length s) s.

End json.

(** ** [getLLMResponse]

    A value decoded by [encoding/json] into [any]: [nil], [bool],
    [float64] (kept as its 64 bits), [string], [[]any] or
    [map[string]any]. *)

#[warnings="-register-all"]
Inductive any :=
| jnil
| jbool (b : bool)
| jnumber (bits : Z)
| jstring (s : gostring)
| jarray (l : list any)
| jobject (m : gmap gostring any).

(** The request the function sends: the two entries of [body], as they are
    read from the JSON that [json.Marshal] makes of it, and the
    [Authorization] header. *)
Record llmRequest := mkLlmRequest {
  reqModel : gostring;
  reqInput : gostring;
  reqAuthorization : gostring
}.

(** What the network and the decoder make of a request: one of the three
    errors the function checks for ([http.NewRequest], [client.Do],
    [Decode]), or the decoded [result]. *)
Inductive httpReply :=
| NewRequestError (err : error)
| DoError (err : error)
| DecodeError (err : error)
| Decoded (result : gmap gostring any).

Definition llmPrompt : gostring :=
  golit "Answer as quickly as possible and concisely max 3 sentences Use only A-Z, a-z, 0-9, and spaces, commas, periods, and question marks. No extra formatting.:".

(** Lines 117-130: the text at [output[1].content[0].text]. *)
Definition extractText (result : gmap gostring any) : gostring * option error :=
  match result !! golit "output" with
  | Some (jarray output) =>
    if (1 <? length output)%nat then
      match output !! 1%nat with
      | Some (jobject secondOutput) =>
        match secondOutput !! golit "content" with
        | Some (jarray content) =>
          if (0 <? length content)%nat then
            match content !! 0%nat with
            | Some (jobject firstContent) =>
              match firstContent !! golit "text" with
              | Some (jstring text) => (cleanResponse text, None)
              | _ => ([], Some (errors.New "could not read response from LLM"))
              end
            | _ => ([], Some (errors.New "could not read response from LLM"))
            end
          else ([], Some (errors.New "could not read response from LLM"))
        | _ => ([], Some (errors.New "could not read response from LLM"))
        end
      | _ => ([], Some (errors.New "could not read response from LLM"))
      end
    else ([], Some (errors.New "could not read response from LLM"))
  | _ => ([], Some (errors.New "could not read response from LLM"))
  end.

(** [getLLMResponse(q)], given the value of [OPENAI_API_KEY] and what the
    outside answers to the request. *)
Definition getLLMResponse (apiKey : gostring) (send : llmRequest → httpReply)
    (q : gostring) : gostring * option error :=
  let r := {| reqModel := json.stringValue (golit "gpt-5-nano");
              reqInput := json.stringValue (llmPrompt ++ q);
              reqAuthorization := golit "Bearer " ++ apiKey |} in
  match send r with
  | NewRequestError err => ([], Some err)
  | DoError err => ([], Some err)
  | DecodeError err => ([], Some err)
  | Decoded result => extractText result
  end.

(** The remote service seen through [getLLMResponse]: [net n] is what the
    outside answers to the [n]-th request. *)
Definition llmVia (apiKey : gostring) (net : nat → llmRequest → httpReply) : LLM :=
  λ n q, getLLMResponse apiKey (net n) q.

(** ** The DNS handler

    The parts of [github.com/miekg/dns] the handler reads or writes. *)

Module dns.

Definition TypeTXT : Z := 16.
Definition ClassINET : Z := 1.
Definition OpcodeQuery : Z := 0.
Definition RcodeSuccess : Z := 0.
Definition RcodeServerFailure : Z := 2.
Definition RcodeNotImplemented : Z := 4.

Record Question := mkQuestion {
  Name : gostring;
  Qtype : Z;
  Qclass : Z
}.

Record RR_Header := mkRR_Header {
  HdrName : gostring;
  Rrtype : Z;
  Class : Z;
  Ttl : Z;
  Rdlength : Z
}.

(** The only resource record the handler builds. *)
Record TXT := mkTXT {
  Hdr : RR_Header;
  Txt : list gostring
}.

Record Msg := mkMsg {
  Id : Z;
  Response : bool;
  Opcode : Z;
  RecursionDesired : bool;
  CheckingDisabled : bool;
  Rcode : Z;
  Questions : list Question;
  Answer : list TXT
}.

(** [new(dns.Msg)] *)
Definition newMsg : Msg :=
  {| Id := 0; Response := false; Opcode := 0; RecursionDesired := false;
     CheckingDisabled := false; Rcode := 0; Questions := []; Answer := [] |}.

(** [m.SetReply(request)] *)
Definition SetReply (m request : Msg) : Msg :=
  {| Id := Id request;
     Response := true;
     Opcode := Opcode request;
     RecursionDesired :=
       if Opcode request =? OpcodeQuery then RecursionDesired request
       else RecursionDesired m;
     CheckingDisabled :=
       if Opcode request =? OpcodeQuery then CheckingDisabled request
       else CheckingDisabled m;
     Rcode := RcodeSuccess;
     Questions :=
       match Questions request with
       | q :: _ => [q]
       | [] => Questions m
       end;
     Answer := Answer m |}.

Definition withRcode (m : Msg) (rcode : Z) : Msg :=
  {| Id := Id m; Response := Response m; Opcode := Opcode m;
     RecursionDesired := RecursionDesired m;
     CheckingDisabled := CheckingDisabled m;
     Rcode := rcode; Questions := Questions m; Answer := Answer m |}.

Definition withAnswer (m : Msg) (answer : list TXT) : Msg :=
  {| Id := Id m; Response := Response m; Opcode := Opcode m;
     RecursionDesired := RecursionDesired m;
     CheckingDisabled := CheckingDisabled m;
     Rcode := Rcode m; Questions := Questions m; Answer := answer |}.

End dns.

(** What a call of the handler does: it writes one message with
    [w.WriteMsg], or its call of [getOrCreateLLMRequest] does not return. *)
Inductive served :=
| Wrote (m : dns.Msg) (w : World)
| NotServed (o : outcome).

Section Handler.

Variable getLLMResponse' : LLM.

(** [handleDNSRequest(w, r)], run with no other goroutine. *)
Definition handleDNSRequest (r : dns.Msg) (w : World) : served :=
  match dns.Questions r with
  | [] =>
    Wrote (dns.withRcode (dns.SetReply dns.newMsg r) dns.RcodeServerFailure) w
  | q :: _ =>
    if negb (dns.Qtype q =? dns.TypeTXT) then
      Wrote (dns.withRcode (dns.SetReply dns.newMsg r) dns.RcodeNotImplemented) w
    else
      match getOrCreateLLMRequest getLLMResponse' (dns.Name q) w with
      | Returned response (Some err) w' =>
        Wrote (dns.withRcode (dns.SetReply dns.newMsg r) dns.RcodeServerFailure) w'
      | Returned response None w' =>
        let m := dns.withRcode (dns.SetReply dns.newMsg r) dns.RcodeSuccess in
        let chunks := chunkString response 255 in
        let rr := {| dns.Hdr := {| dns.HdrName := dns.Name q;
                                   dns.Rrtype := dns.TypeTXT;
                                   dns.Class := dns.ClassINET;
                                   dns.Ttl := 0; dns.Rdlength := 0 |};
                     dns.Txt := chunks |} in
        Wrote (dns.withAnswer m ([] ++ [rr])) w'
      | o => NotServed o
      end
  end.

(** [ServeDNS] *)
Definition ServeDNS (r : dns.Msg) (w : World) : served := handleDNSRequest r w.

End Handler.

(** ** Auxiliary definitions of the proofs *)

(** *** The chunker on a cleaned text *)

Definition cleanState (st : chunkState) : chunkState :=
  {| ci := ci st;
     cchunks := cleanResponse <$> cchunks st;
     cbuf := cleanResponse (cbuf st) |}.

(** *** Sample messages *)

(** A reply of the remote service as [getLLMResponse] reads it: the text is
    at [output[1].content[0].text]. *)
Definition sampleReply : gmap gostring any :=
  {[ golit "output" :=
       jarray [ jobject {[ golit "type" := jstring (golit "reasoning") ]};
                jobject {[ golit "content" :=
                  jarray [ jobject {[ golit "text" :=
                             jstring (golit "Paris." ++ [LF] ++ golit "Yes.") ]} ] ]} ] ]}.

(** What [handleDNSRequest] starts every reply from: [m.SetReply(r)] with
    the result code set later. *)
Definition replyTo (r : dns.Msg) (rcode : Z) : dns.Msg :=
  dns.withRcode (dns.SetReply dns.newMsg r) rcode.

Definition txtQuery (name : gostring) : dns.Msg :=
  {| dns.Id := 4242; dns.Response := false; dns.Opcode := dns.OpcodeQuery;
     dns.RecursionDesired := true; dns.CheckingDisabled := false; dns.Rcode := 0;
     dns.Questions := [ {| dns.Name := name; dns.Qtype := dns.TypeTXT;
                           dns.Qclass := dns.ClassINET |} ];
     dns.Answer := [] |}.


(** *** Where responses come from *)

(** The remote service answered [r] to a recorded call for [q]. *)
Definition answered (llm : LLM) (calls : list gostring) (q r : gostring) : Prop :=
  ∃ n, calls !! n = Some q ∧ llm n q = (r, None).

(** The remote service failed with [e] on a recorded call for [q]. *)
Definition refused (llm : LLM) (calls : list gostring) (q : gostring) (e : error) : Prop :=
  ∃ n r, calls !! n = Some q ∧ llm n q = (r, Some e).

(** The response a goroutine has in hand. *)
Definition carries (p : pc) : option gostring :=
  match p with
  | L170 _ r | L171 _ r | L172 _ r | L173 _ r | L176 _ r | Return r None => Some r
  | _ => None
  end.

(** The error a goroutine has in hand. *)
Definition fails (p : pc) : option (gostring * error) :=
  match p with
  | L163 _ e => Some ([], e)
  | Return r (Some e) => Some (r, e)
  | _ => None
  end.

Record traced (llm : LLM) (c : config) : Prop := mkTraced {
  traced_cache : ∀ q e,
    cache (world c) !! q = Some e →
    answered llm (llmCalls (world c)) q (response e);
  traced_ok : ∀ i q p r,
    goroutines c !! i = Some (q, p) → carries p = Some r →
    answered llm (llmCalls (world c)) q r;
  traced_err : ∀ i q p r e,
    goroutines c !! i = Some (q, p) → fails p = Some (r, e) →
    r = [] ∧ (e = errors.New "upstream generation failed" ∨
              refused llm (llmCalls (world c)) q e)
}.

(** *** Counting the calls of the remote service *)

(** The goroutine may still call [getLLMResponse]. *)
Definition canCall (p : pc) : bool :=
  match p with
  | L134 | L140 | L141 | L155 | L157 _ | L159 _ => true
  | _ => false
  end.

(** Requests for [q] among the goroutines, and those that may still call. *)
Definition requestsFor (q : gostring) (gs : list (gostring * pc)) : nat :=
  length (filter (λ g, g.1 = q) gs).

Definition pendingFor (q : gostring) (gs : list (gostring * pc)) : nat :=
  length (filter (λ g, g.1 = q ∧ canCall g.2 = true) gs).

Definition callsFor (q : gostring) (calls : list gostring) : nat :=
  length (filter (λ k, k = q) calls).

Definition bounded (q : gostring) (c : config) : Prop :=
  (callsFor q (llmCalls (world c)) + pendingFor q (goroutines c)
   ≤ requestsFor q (goroutines c))%nat.

(** *** Progress *)

Definition finished (p : pc) : bool :=
  match p with
  | Return _ _ | Panic => true
  | _ => false
  end.

(** The call has returned. *)
Definition returned (p : pc) : bool :=
  match p with
  | Return _ _ => true
  | _ => false
  end.

(** Some goroutine made [ch] and has yet to close it. *)
Definition ownerOf (c : config) (ch : chan) : Prop :=
  ∃ j q p, goroutines c !! j = Some (q, p) ∧ owns p ch.

(** The number of steps a goroutine at [p] has left at most. *)
Definition rank (p : pc) : nat :=
  match p with
  | L134 => 11
  | L140 => 10
  | L141 => 9
  | L155 => 8
  | L157 _ => 7
  | L159 _ => 6
  | L170 _ _ => 5
  | L171 _ _ => 4
  | L172 _ _ | L143 _ => 3
  | L173 _ _ | L146 _ => 2
  | L176 _ _ | L147 _ | L163 _ _ => 1
  | Return _ _ | Panic => 0
  end.

Definition remaining (gs : list (gostring * pc)) : nat :=
  sum_list ((λ g, rank g.2) <$> gs).

(** Whoever is waited for exists: a held mutex has a holder inside the
    critical section, and a channel that is in the registry or waited on
    is closed or has a goroutine that will close it. *)
Record live (c : config) : Prop := mkLive {
  live_lock :
    inFlightLocked (world c) = true →
    ∃ j q p, goroutines c !! j = Some (q, p) ∧ inCS p;
  live_slot : ∀ q ch,
    inFlightRequests (world c) !! q = Some ch →
    ch ∈ closed (world c) ∨ ownerOf c ch;
  live_wait : ∀ i q p ch,
    goroutines c !! i = Some (q, p) → p = L143 ch ∨ p = L146 ch →
    ch ∈ closed (world c) ∨ ownerOf c ch
}.

(** *** What the registry holds *)

(** The goroutine has taken its channel [ch] out of the registry. *)
Definition released (p : pc) (ch : chan) : Prop :=
  match p with
  | L173 c _ | L176 c _ => c = ch
  | _ => False
  end.

(** What a slot of the registry can hold. *)
Record blame (llm : LLM) (c : config) : Prop := mkBlame {
  blame_fresh : ∀ q ch,
    inFlightRequests (world c) !! q = Some ch → (ch < nextChan (world c))%nat;
  blame_key : ∀ q ch i q' p,
    inFlightRequests (world c) !! q = Some ch →
    goroutines c !! i = Some (q', p) → owns p ch → q = q';
  blame_released : ∀ q i q' p ch,
    goroutines c !! i = Some (q', p) → released p ch →
    inFlightRequests (world c) !! q ≠ Some ch;
  blame_failed : ∀ i q ch e,
    goroutines c !! i = Some (q, L163 ch e) →
    refused llm (llmCalls (world c)) q e;
  blame_poisoned : ∀ q ch,
    poisoned q ch c → ∃ e, refused llm (llmCalls (world c)) q e
}.

(** Nothing is under way: the mutex is free, every channel of the registry
    is closed, and the next channel to be made is not. *)
Definition quiescent (w : World) : Prop :=
  inFlightLocked w = false ∧
  (∀ q ch, inFlightRequests w !! q = Some ch → ch ∈ closed w) ∧
  nextChan w ∉ closed w.

(** * Proofs *)

(** ** The decoder and the chunker *)

Lemma DecodeRune_width (s : gostring) :
  s ≠ [] →
  (1 ≤ firstWidth s ≤ length s)%nat ∧ (firstWidth s ≤ 4)%nat.
Proof.
  unfold firstWidth, utf8.DecodeRuneInString.
  destruct s as [|b0 [|b1 [|b2 [|b3 t]]]]; [done|..]; intros _;
    repeat (case_match; simpl in *; try lia).
Qed.

Lemma drop_nonempty {A} (l : list A) (i : nat) :
  (i < length l)%nat → drop i l ≠ [].
Proof.
  intros Hi Hnil. apply (f_equal length) in Hnil.
  rewrite length_drop in Hnil. simpl in Hnil. lia.
Qed.

Section ChunkLoop.
Context (s : gostring) (chunkSize : Z).

Lemma runeAt_length i :
  (i < length s)%nat →
  length (runeAt s i) = firstWidth (drop i s) ∧
  (1 ≤ firstWidth (drop i s))%nat ∧
  (i + firstWidth (drop i s) ≤ length s)%nat.
Proof.
  intros Hi. pose proof (DecodeRune_width (drop i s) (drop_nonempty s i Hi)) as [Hw _].
  rewrite length_drop in Hw. unfold runeAt.
  rewrite length_take, length_drop. lia.
Qed.

Lemma chunkBody_flush st :
  Z.of_nat (length (cbuf st)) + Z.of_nat (firstWidth (drop (ci st) s)) > chunkSize →
  chunkBody s chunkSize st =
    {| ci := ci st + firstWidth (drop (ci st) s);
       cchunks := cchunks st ++ [cbuf st];
       cbuf := runeAt s (ci st) |}.
Proof.
  intros H. unfold chunkBody. fold (firstWidth (drop (ci st) s)).
  destruct (Z.gtb_spec (Z.of_nat (length (cbuf st)) + Z.of_nat (firstWidth (drop (ci st) s))) chunkSize);
    [reflexivity | lia].
Qed.

Lemma chunkBody_keep st :
  Z.of_nat (length (cbuf st)) + Z.of_nat (firstWidth (drop (ci st) s)) ≤ chunkSize →
  chunkBody s chunkSize st =
    {| ci := ci st + firstWidth (drop (ci st) s);
       cchunks := cchunks st;
       cbuf := cbuf st ++ runeAt s (ci st) |}.
Proof.
  intros H. unfold chunkBody. fold (firstWidth (drop (ci st) s)).
  destruct (Z.gtb_spec (Z.of_nat (length (cbuf st)) + Z.of_nat (firstWidth (drop (ci st) s))) chunkSize);
    [lia | reflexivity].
Qed.

Lemma chunkBody_cases st :
  (Z.of_nat (length (cbuf st)) + Z.of_nat (firstWidth (drop (ci st) s)) > chunkSize ∧
   chunkBody s chunkSize st =
     {| ci := ci st + firstWidth (drop (ci st) s);
        cchunks := cchunks st ++ [cbuf st];
        cbuf := runeAt s (ci st) |}) ∨
  (Z.of_nat (length (cbuf st)) + Z.of_nat (firstWidth (drop (ci st) s)) ≤ chunkSize ∧
   chunkBody s chunkSize st =
     {| ci := ci st + firstWidth (drop (ci st) s);
        cchunks := cchunks st;
        cbuf := cbuf st ++ runeAt s (ci st) |}).
Proof.
  destruct (Z_gt_le_dec (Z.of_nat (length (cbuf st)) + Z.of_nat (firstWidth (drop (ci st) s))) chunkSize).
  - left. split; [done|]. by apply chunkBody_flush.
  - right. split; [done|]. by apply chunkBody_keep.
Qed.

Lemma chunkBody_ci st :
  ci (chunkBody s chunkSize st) = (ci st + firstWidth (drop (ci st) s))%nat.
Proof. destruct (chunkBody_cases st) as [[_ ->]|[_ ->]]; reflexivity. Qed.

(** Loop rule: an invariant of the body holds when the loop exits, and the
    loop exits with [i = len(s)] once the fuel covers the bytes left. *)
Lemma chunkLoop_inv (P : chunkState → Prop) :
  (∀ st, P st → (ci st < length s)%nat → P (chunkBody s chunkSize st)) →
  ∀ fuel st,
    P st → (ci st ≤ length s)%nat → (length s - ci st ≤ fuel)%nat →
    P (chunkLoop fuel s chunkSize st) ∧
    ci (chunkLoop fuel s chunkSize st) = length s.
Proof.
  intros Hbody. induction fuel as [|fuel IH]; intros st HP Hle Hfuel; simpl.
  - split; [done | lia].
  - destruct (Nat.ltb_spec (ci st) (length s)) as [Hlt|Hge]; [|split; [done | lia]].
    destruct (runeAt_length (ci st) Hlt) as (_ & Hw1 & Hw2).
    apply IH; [by apply Hbody | rewrite chunkBody_ci; lia ..].
Qed.

Lemma chunkLoop_exits fuel :
  (length s ≤ fuel)%nat →
  chunkLoop fuel s chunkSize chunkInit = chunkLoop (length s) s chunkSize chunkInit.
Proof.
  assert (∀ f1 f2 st, (ci st ≤ length s)%nat → (length s - ci st ≤ f1)%nat →
            (length s - ci st ≤ f2)%nat →
            chunkLoop f1 s chunkSize st = chunkLoop f2 s chunkSize st) as H.
  { induction f1 as [|f1 IH]; intros f2 st Hle H1 H2.
    - destruct f2; simpl; [done|].
      destruct (Nat.ltb_spec (ci st) (length s)); [lia | done].
    - destruct f2; simpl.
      + destruct (Nat.ltb_spec (ci st) (length s)); [lia | done].
      + destruct (Nat.ltb_spec (ci st) (length s)) as [Hlt|]; [|done].
        destruct (runeAt_length (ci st) Hlt) as (_ & Hw1 & Hw2).
        apply IH; rewrite chunkBody_ci; lia. }
  intros Hf. apply H; simpl; lia.
Qed.
End ChunkLoop.

(** *** Runes *)

Lemma runesFrom_fuel (f1 f2 : nat) (t : gostring) :
  (length t ≤ f1)%nat → (length t ≤ f2)%nat → runesFrom f1 t = runesFrom f2 t.
Proof.
  revert f2 t. induction f1 as [|f1 IH]; intros f2 t H1 H2.
  - destruct t; simpl in *; [|lia]. by destruct f2.
  - destruct f2; simpl.
    + destruct t; simpl in *; [done | lia].
    + destruct t as [|b t]; [done|].
      destruct (DecodeRune_width (b :: t)) as [Hw _]; [done|].
      unfold firstWidth in Hw. f_equal.
      apply IH; rewrite length_drop; simpl in *; lia.
Qed.

Lemma runes_unfold (t : gostring) :
  t ≠ [] →
  runes t = take (firstWidth t) t :: runes (drop (firstWidth t) t).
Proof.
  intros Hne. unfold runes. destruct t as [|b t]; [done|].
  destruct (DecodeRune_width (b :: t)) as [Hw _]; [done|].
  change (length (b :: t)) with (S (length t)).
  cbn [runesFrom]. fold (firstWidth (b :: t)). f_equal.
  apply runesFrom_fuel; rewrite ?length_drop; simpl in *; lia.
Qed.

Lemma runes_nil : runes [] = [].
Proof. reflexivity. Qed.

Lemma concat_runes (t : gostring) : concat (runes t) = t.
Proof.
  remember (length t) as n eqn:Hn. revert t Hn.
  induction n as [n IH] using lt_wf_ind; intros t Hn.
  destruct t as [|b t]; [done|].
  rewrite runes_unfold by done. simpl concat.
  destruct (DecodeRune_width (b :: t)) as [Hw _]; [done|].
  rewrite (IH (length (drop (firstWidth (b :: t)) (b :: t)))); [apply take_drop | | done].
  rewrite length_drop. simpl in *. lia.
Qed.

Lemma runes_nonempty (t r : gostring) : r ∈ runes t → r ≠ [].
Proof.
  remember (length t) as n eqn:Hn. revert t Hn.
  induction n as [n IH] using lt_wf_ind; intros t Hn Hin.
  destruct t as [|b t]; [by apply elem_of_nil in Hin|].
  rewrite runes_unfold in Hin by done.
  destruct (DecodeRune_width (b :: t)) as [Hw _]; [done|].
  apply elem_of_cons in Hin as [->|Hin].
  - intros Hnil. apply (f_equal length) in Hnil. rewrite length_take in Hnil.
    simpl in *. lia.
  - eapply (IH (length (drop (firstWidth (b :: t)) (b :: t)))); [| done | done].
    rewrite length_drop. simpl in *. lia.
Qed.

(** *** Round trip *)

Lemma chunkBody_roundtrip s chunkSize st :
  concat (cchunks st) ++ cbuf st = take (ci st) s →
  concat (cchunks (chunkBody s chunkSize st)) ++ cbuf (chunkBody s chunkSize st)
    = take (ci (chunkBody s chunkSize st)) s.
Proof.
  intros Hinv.
  destruct (chunkBody_cases s chunkSize st) as [[_ ->]|[_ ->]]; cbn [ci cchunks cbuf];
    unfold runeAt; rewrite <- take_take_drop, <- Hinv.
  - rewrite concat_app. simpl. by rewrite app_nil_r.
  - by rewrite app_assoc.
Qed.

Lemma chunkString_concat s chunkSize : concat (chunkString s chunkSize) = s.
Proof.
  unfold chunkString.
  destruct (chunkLoop_inv s chunkSize
              (λ st, concat (cchunks st) ++ cbuf st = take (ci st) s)) with
    (fuel := length s) (st := chunkInit) as [Hinv Hi].
  - intros st H _. by apply chunkBody_roundtrip.
  - reflexivity.
  - simpl; lia.
  - simpl; lia.
  - rewrite Hi, firstn_all in Hinv.
    destruct (Nat.ltb_spec 0 (length (cbuf (chunkLoop (length s) s chunkSize chunkInit)))) as [Hlt|Hge].
    + rewrite concat_app. simpl. by rewrite app_nil_r.
    + destruct (cbuf _); simpl in Hge; [|lia]. by rewrite app_nil_r in Hinv.
Qed.

(** *** Chunks are groups of whole runes *)

Lemma chunkBody_groupInv s chunkSize st :
  groupInv s chunkSize st → (ci st < length s)%nat →
  groupInv s chunkSize (chunkBody s chunkSize st).
Proof.
  intros (gs & g & Hch & Hbuf & Hrunes & Hok) Hlt.
  destruct (runeAt_length s (ci st) Hlt) as (Hlen & Hw1 & Hw2).
  rewrite (runes_unfold (drop (ci st) s)) in Hrunes by by apply drop_nonempty.
  rewrite drop_drop in Hrunes. fold (runeAt s (ci st)) in Hrunes.
  destruct (chunkBody_cases s chunkSize st) as [[Hgt ->]|[Hle ->]]; cbn [ci cchunks cbuf].
  - exists (gs ++ [g]), [runeAt s (ci st)]. repeat split.
    + rewrite map_app, Hch, Hbuf. reflexivity.
    + simpl. by rewrite app_nil_r.
    + rewrite concat_app. simpl. rewrite app_nil_r, <- app_assoc. exact Hrunes.
    + apply Forall_app. split; [by apply Hok|]. apply Forall_singleton. by apply Hok.
    + destruct (Z_le_gt_dec (Z.of_nat (length (runeAt s (ci st)))) chunkSize).
      * left. simpl. rewrite app_nil_r. done.
      * right. eexists. split; [done | lia].
  - exists gs, (g ++ [runeAt s (ci st)]). repeat split.
    + done.
    + rewrite concat_app, Hbuf. simpl. by rewrite app_nil_r.
    + rewrite <- app_assoc. exact Hrunes.
    + by apply Hok.
    + left. rewrite concat_app, length_app, <- Hbuf. simpl. rewrite app_nil_r. lia.
Qed.

Lemma concat_nil_nonempty (g : list gostring) :
  Forall (λ r, r ≠ []) g → concat g = [] → g = [].
Proof.
  destruct g as [|r g]; [done|]. intros Hall Hnil.
  apply Forall_cons in Hall as [Hr _]. simpl in Hnil.
  by apply app_eq_nil in Hnil as [? _].
Qed.

Lemma chunkString_groups s chunkSize :
  ∃ groups : list (list gostring),
    concat groups = runes s ∧
    chunkString s chunkSize = map (@concat byte) groups ∧
    (0 ≤ chunkSize → Forall (okGroup chunkSize) groups).
Proof.
  unfold chunkString.
  destruct (chunkLoop_inv s chunkSize (groupInv s chunkSize))
    with (fuel := length s) (st := chunkInit) as [Hinv Hi].
  - intros st. apply chunkBody_groupInv.
  - exists [], []. split; [done|]. split; [done|]. split; [done|].
    intros Hm. split; [constructor | left; simpl; lia].
  - simpl; lia.
  - simpl; lia.
  - destruct Hinv as (gs & g & Hch & Hbuf & Hrunes & Hok).
    rewrite Hi, drop_all, runes_nil, app_nil_r in Hrunes.
    destruct (Nat.ltb_spec 0 (length (cbuf (chunkLoop (length s) s chunkSize chunkInit)))) as [Hlt|Hge].
    + exists (gs ++ [g]). repeat split.
      * rewrite concat_app. simpl. by rewrite app_nil_r.
      * by rewrite map_app, Hch, Hbuf.
      * intros Hm. apply Forall_app. split; [by apply Hok|].
        apply Forall_singleton. by apply Hok.
    + assert (g = []) as ->.
      { apply concat_nil_nonempty.
        - apply Forall_forall. intros r Hr. apply (runes_nonempty s).
          rewrite <- Hrunes. apply elem_of_app. by right.
        - rewrite <- Hbuf. destruct (cbuf _); simpl in Hge; [done | lia]. }
      rewrite app_nil_r in Hrunes. exists gs. repeat split; [done | done |].
      intros Hm. by apply Hok.
Qed.

(** *** Empty chunks *)

Lemma runeAt_nonempty s i : (i < length s)%nat → runeAt s i ≠ [].
Proof.
  intros Hlt Hnil. destruct (runeAt_length s i Hlt) as (Hlen & Hw1 & _).
  rewrite Hnil in Hlen. simpl in Hlen. lia.
Qed.




Lemma chunkBody_fitsInv s chunkSize st :
  Z.of_nat (firstWidth s) ≤ chunkSize →
  fitsInv st → (ci st < length s)%nat → fitsInv (chunkBody s chunkSize st).
Proof.
  intros Hfit [Hall Hbuf] Hlt. pose proof (runeAt_nonempty s (ci st) Hlt) as Hr.
  destruct (chunkBody_cases s chunkSize st) as [[Hgt ->]|[_ ->]];
    split; cbn [ci cchunks cbuf].
  - destruct Hbuf as [->|Hbuf].
    + unfold chunkInit in Hgt. cbn in Hgt. rewrite drop_0 in Hgt. lia.
    + apply Forall_app. split; [done|]. by apply Forall_singleton.
  - by right.
  - done.
  - right. intros Hnil. by apply app_eq_nil in Hnil as [_ ?].
Qed.

Lemma chunkString_fits_nonempty s chunkSize :
  Z.of_nat (firstWidth s) ≤ chunkSize →
  Forall (λ c, c ≠ []) (chunkString s chunkSize).
Proof.
  intros Hfit. unfold chunkString.
  destruct (chunkLoop_inv s chunkSize fitsInv)
    with (fuel := length s) (st := chunkInit) as [[Hall Hbuf] _].
  - intros st. by apply chunkBody_fitsInv.
  - split; [constructor | by left].
  - simpl; lia.
  - simpl; lia.
  - destruct (Nat.ltb_spec 0 (length (cbuf (chunkLoop (length s) s chunkSize chunkInit)))) as [Hlt|Hge];
      [|done].
    apply Forall_app. split; [done|]. apply Forall_singleton.
    intros Hnil. rewrite Hnil in Hlt. simpl in Hlt. lia.
Qed.



(** *** Characters and runes

    The decoder cuts a string where the characters of the Unicode Standard
    begin and end: it reads a character at the head of a string with the
    character's length as width, and gives a width above one to characters
    only. *)

Ltac zcmp :=
  repeat match goal with
  | |- context [(?a <? ?b)%Z] => destruct (Z.ltb_spec a b); try lia
  | |- context [(?a <=? ?b)%Z] => destruct (Z.leb_spec a b); try lia
  | |- context [(?a =? ?b)%Z] => destruct (Z.eqb_spec a b); try lia
  end.

Lemma first_cases (b : byte) :
  (byteZ b < 0x80 ∧ utf8.first b = utf8.as_) ∨
  ((0x80 ≤ byteZ b < 0xC2 ∨ 0xF4 < byteZ b) ∧ utf8.first b = utf8.xx) ∨
  (0xC2 ≤ byteZ b < 0xE0 ∧ utf8.first b = utf8.s1) ∨
  (byteZ b = 0xE0 ∧ utf8.first b = utf8.s2) ∨
  ((0xE1 ≤ byteZ b < 0xED ∨ 0xEE ≤ byteZ b < 0xF0) ∧ utf8.first b = utf8.s3) ∨
  (byteZ b = 0xED ∧ utf8.first b = utf8.s4) ∨
  (byteZ b = 0xF0 ∧ utf8.first b = utf8.s5) ∨
  (0xF1 ≤ byteZ b < 0xF4 ∧ utf8.first b = utf8.s6) ∨
  (byteZ b = 0xF4 ∧ utf8.first b = utf8.s7).
Proof.
  unfold utf8.first. cbv zeta. zcmp; intuition lia.
Qed.

Ltac utf8_consts :=
  cbv [utf8.as_ utf8.xx utf8.s1 utf8.s2 utf8.s3 utf8.s4 utf8.s5 utf8.s6 utf8.s7
       utf8.locb utf8.hicb utf8.acceptRanges utf8.lo utf8.hi].

Lemma firstWidth_encodedChar (c t : gostring) :
  encodedChar c = true → firstWidth (c ++ t) = length c.
Proof.
  destruct c as [|b0 [|b1 [|b2 [|b3 [|b4 c]]]]]; try done; unfold encodedChar, between; intros Hc;
    unfold firstWidth, utf8.DecodeRuneInString; simpl app;
    destruct (first_cases b0) as [[H0 ->]|[[H0 ->]|[[H0 ->]|[[H0 ->]|[[H0 ->]|[[H0 ->]|[[H0 ->]|[[H0 ->]|[H0 ->]]]]]]]]];
    revert Hc; utf8_consts; simpl; zcmp; simpl; try done.
Qed.

(** The decoder gives a width above 1 to well-formed sequences only. *)
Lemma firstWidth_sound (s : gostring) :
  (1 < firstWidth s)%nat → encodedChar (take (firstWidth s) s) = true.
Proof.
  unfold firstWidth, utf8.DecodeRuneInString.
  destruct s as [|b0 [|b1 [|b2 [|b3 t]]]]; simpl length;
    try (simpl; lia);
    destruct (first_cases b0) as [[H0 ->]|[[H0 ->]|[[H0 ->]|[[H0 ->]|[[H0 ->]|[[H0 ->]|[[H0 ->]|[[H0 ->]|[H0 ->]]]]]]]]];
    utf8_consts; simpl; zcmp; simpl; try lia; intros _;
    unfold between; zcmp; simpl; try done.
Qed.

(** Past its first byte a character has continuation bytes only, and its
    first byte is not one. *)
Lemma encodedChar_continuation (c : gostring) (k : nat) (b : byte) :
  encodedChar c = true → c !! S k = Some b → 0x80 ≤ byteZ b ≤ 0xBF.
Proof.
  destruct c as [|b0 [|b1 [|b2 [|b3 [|b4 c]]]]]; try done; unfold encodedChar, between;
    intros Hc Hk; destruct k as [|[|[|k]]]; simplify_eq/=;
    revert Hc; zcmp; simpl; try done; lia.
Qed.

Lemma encodedChar_lead (b : byte) (c : gostring) :
  encodedChar (b :: c) = true → byteZ b < 0x80 ∨ 0xC2 ≤ byteZ b.
Proof.
  destruct c as [|b1 [|b2 [|b3 [|b4 c]]]]; try done; unfold encodedChar, between;
    zcmp; simpl; try done; lia.
Qed.

Lemma encodedChar_nonempty (c : gostring) : encodedChar c = true → c ≠ [].
Proof. by destruct c. Qed.

(** Every occurrence of a character in [s] is one of the runes the decoder
    delimits, at that very place. *)
Lemma encodedChar_rune (pre c post : gostring) :
  encodedChar c = true →
  ∃ rs1 rs2, runes (pre ++ c ++ post) = rs1 ++ c :: rs2 ∧
             concat rs1 = pre ∧ concat rs2 = post.
Proof.
  intros Hc. remember (length pre) as n eqn:Hn. revert pre Hn.
  induction n as [n IH] using lt_wf_ind; intros pre Hn.
  destruct pre as [|p0 pre'].
  - exists [], (runes post). simpl.
    destruct c as [|b0 c'] eqn:Hcs; [done|]. rewrite <- Hcs in *.
    rewrite runes_unfold by (rewrite Hcs; done).
    rewrite firstWidth_encodedChar by done.
    rewrite take_app_length, drop_app_length. split; [done|]. split; [done|].
    apply concat_runes.
  - set (s := (p0 :: pre') ++ c ++ post).
    destruct (DecodeRune_width s) as [[Hw1 Hw2] Hw4]; [done|].
    assert (firstWidth s ≤ length (p0 :: pre'))%nat as Hfit.
    { destruct (decide (firstWidth s = 1%nat)) as [->|Hne]; [simpl; lia|].
      destruct (decide (firstWidth s ≤ length (p0 :: pre'))%nat) as [|Hlong]; [done|].
      exfalso.
      pose proof (firstWidth_sound s ltac:(lia)) as Hr.
      destruct c as [|b c'] eqn:Hcs; [done|].
      assert (take (firstWidth s) s !! S (length pre') = Some b) as Hb.
      { rewrite lookup_take_lt by (simpl in *; lia). unfold s.
        rewrite lookup_app_r by (simpl; lia).
        replace (S (length pre') - length (p0 :: pre'))%nat with 0%nat by (simpl; lia).
        done. }
      pose proof (encodedChar_continuation _ _ _ Hr Hb).
      pose proof (encodedChar_lead _ _ Hc). lia. }
    remember (firstWidth s) as w eqn:Hw.
    destruct (IH (length (drop w (p0 :: pre')))
                ltac:(rewrite length_drop; simpl in *; lia)
                (drop w (p0 :: pre')) eq_refl)
      as (rs1 & rs2 & Hruns & Hpre & Hpost).
    exists (take w (p0 :: pre') :: rs1), rs2.
    rewrite runes_unfold by done. fold s. rewrite <- Hw.
    subst s. rewrite take_app_le, drop_app_le by done.
    rewrite Hruns. simpl. rewrite Hpre, take_drop. done.
Qed.

(** A rune wider than one byte is a character. *)
Lemma runes_encodedChar (s r : gostring) :
  r ∈ runes s → (1 < length r)%nat → encodedChar r = true.
Proof.
  remember (length s) as n eqn:Hn. revert s Hn.
  induction n as [n IH] using lt_wf_ind; intros s Hn Hin Hlen.
  destruct s as [|b s]; [by apply elem_of_nil in Hin|].
  rewrite runes_unfold in Hin by done.
  destruct (DecodeRune_width (b :: s)) as [Hw Hmax]; [done|].
  apply elem_of_cons in Hin as [->|Hin].
  - apply firstWidth_sound. rewrite length_take in Hlen. lia.
  - eapply (IH (length (drop (firstWidth (b :: s)) (b :: s)))); [| done | done | done].
    rewrite length_drop. simpl in *. lia.
Qed.

(** Splitting a concatenation at one of its elements. *)
Lemma concat_split {A} (gs : list (list A)) (l1 l2 : list A) (x : A) :
  concat gs = l1 ++ x :: l2 →
  ∃ gs1 g1 g2 gs2, gs = gs1 ++ (g1 ++ x :: g2) :: gs2 ∧
                   concat gs1 ++ g1 = l1 ∧ g2 ++ concat gs2 = l2.
Proof.
  revert l1. induction gs as [|g gs IH]; intros l1 Heq.
  { by destruct l1. }
  simpl in Heq. apply app_eq_inv in Heq as [(k & -> & Hk)|(k & -> & Hk)].
  - destruct k as [|y k].
    + simpl in Hk. rewrite app_nil_r.
      destruct (IH [] (eq_sym Hk)) as (gs1 & g1 & g2 & gs2 & -> & Hl1 & Hl2).
      apply app_eq_nil in Hl1 as [Hgs1 ->].
      exists (l1 :: gs1), [], g2, gs2. simpl. by rewrite Hgs1, !app_nil_r.
    + simpl in Hk. injection Hk as <- ->.
      exists [], l1, k, gs. done.
  - destruct (IH k Hk) as (gs1 & g1 & g2 & gs2 & -> & Hl1 & Hl2).
    exists (g :: gs1), g1, g2, gs2. simpl. by rewrite <- app_assoc, Hl1.
Qed.

Lemma concat_map_concat {A} (gs : list (list (list A))) :
  concat (map (@concat A) gs) = concat (concat gs).
Proof.
  induction gs as [|g gs IH]; [done|]. simpl. by rewrite concat_app, IH.
Qed.

(** The bytes of a character of [s] all lie in one chunk. *)
Lemma chunkString_keeps_chars (s : gostring) (chunkSize : Z) (pre c post : gostring) :
  s = pre ++ c ++ post → encodedChar c = true →
  ∃ before x y after,
    chunkString s chunkSize = before ++ (x ++ c ++ y) :: after ∧
    concat before ++ x = pre ∧ y ++ concat after = post.
Proof.
  intros -> Hc.
  destruct (chunkString_groups (pre ++ c ++ post) chunkSize) as (groups & Hruns & -> & _).
  destruct (encodedChar_rune pre c post Hc) as (rs1 & rs2 & Hrs & Hpre & Hpost).
  rewrite Hrs in Hruns.
  destruct (concat_split _ _ _ _ Hruns) as (gs1 & g1 & g2 & gs2 & -> & H1 & H2).
  exists (map (@concat byte) gs1), (concat g1), (concat g2), (map (@concat byte) gs2).
  rewrite map_app. simpl. rewrite concat_app. simpl.
  split; [done|]. split.
  - by rewrite <- Hpre, <- H1, concat_app, concat_map_concat.
  - by rewrite <- Hpost, <- H2, concat_app, concat_map_concat.
Qed.

(** *** The claims about [chunkString] *)

Example chunk_abc :
  chunkString (golit "abc") 2 = [golit "ab"; golit "c"].
Proof. reflexivity. Qed.

(** A four-byte rune that would straddle the limit goes whole into the next
    chunk, and the chunk before it stays short. *)
Example chunk_straddle :
  chunkString (golit "ab😀c") 4 = [golit "ab"; golit "😀"; golit "c"].
Proof. reflexivity. Qed.

(** C4: for every string [s] and every positive [chunkSize], the chunks of
    [chunkString s chunkSize] concatenated in order give back [s] byte for
    byte; every chunk is a run of whole runes of [s] as the decoder cuts
    them; wherever a character (a well-formed UTF-8 sequence) occurs in
    [s], its bytes lie together inside one chunk, so no boundary falls
    inside the encoding of a character; and the empty string gives the
    empty list of chunks. *)
Theorem chunkString_roundtrip (s : gostring) (chunkSize : Z) :
  0 < chunkSize →
  concat (chunkString s chunkSize) = s ∧
  (∃ groups : list (list gostring),
     concat groups = runes s ∧
     chunkString s chunkSize = map (@concat byte) groups) ∧
  (∀ pre c post : gostring,
     s = pre ++ c ++ post → encodedChar c = true →
     ∃ before x y after,
       chunkString s chunkSize = before ++ (x ++ c ++ y) :: after ∧
       concat before ++ x = pre ∧ y ++ concat after = post) ∧
  chunkString [] chunkSize = [].
Proof.
  intros _. split; [apply chunkString_concat|]. split; [|split; [|reflexivity]].
  - destruct (chunkString_groups s chunkSize) as (groups & Hruns & Hchunks & _).
    by exists groups.
  - intros pre c post. apply chunkString_keeps_chars.
Qed.

Lemma chunkString_roundtrip_witness :
  concat (chunkString (golit "ab😀c") 3) = golit "ab😀c" ∧
  (∃ groups : list (list gostring),
     concat groups = runes (golit "ab😀c") ∧
     chunkString (golit "ab😀c") 3 = map (@concat byte) groups) ∧
  (∀ pre c post : gostring,
     golit "ab😀c" = pre ++ c ++ post → encodedChar c = true →
     ∃ before x y after,
       chunkString (golit "ab😀c") 3 = before ++ (x ++ c ++ y) :: after ∧
       concat before ++ x = pre ∧ y ++ concat after = post) ∧
  chunkString [] 3 = [].
Proof. apply (chunkString_roundtrip (golit "ab😀c") 3). lia. Defined.

(** C5: for every string and every positive [chunkSize], each chunk of
    [chunkString] is a group of whole runes of the input that either fits in
    [chunkSize] bytes or is a single rune whose encoding alone is longer
    than [chunkSize], and such a chunk is one character (a well-formed
    UTF-8 sequence); the groups, in order, are exactly the runes of the
    input; and wherever a character occurs in the input its bytes lie
    together inside one chunk: they are never split between two chunks. *)
Theorem chunkString_bounded (s : gostring) (chunkSize : Z) :
  0 < chunkSize →
  (∃ groups : list (list gostring),
     concat groups = runes s ∧
     chunkString s chunkSize = map (@concat byte) groups ∧
     Forall (okGroup chunkSize) groups) ∧
  Forall (λ c, Z.of_nat (length c) ≤ chunkSize ∨
               (c ∈ runes s ∧ chunkSize < Z.of_nat (length c) ∧ encodedChar c = true))
         (chunkString s chunkSize) ∧
  (∀ pre c post : gostring,
     s = pre ++ c ++ post → encodedChar c = true →
     ∃ before x y after,
       chunkString s chunkSize = before ++ (x ++ c ++ y) :: after ∧
       concat before ++ x = pre ∧ y ++ concat after = post).
Proof.
  intros Hpos.
  destruct (chunkString_groups s chunkSize) as (groups & Hruns & Hchunks & Hok).
  specialize (Hok ltac:(lia)). split; [by exists groups|]. split.
  - rewrite Hchunks. apply Forall_fmap, Forall_forall. intros g Hg. simpl.
    pose proof (proj1 (Forall_forall _ _) Hok g Hg) as [Hfit|(r & -> & Hbig)].
    + by left.
    + right. simpl. rewrite app_nil_r.
      assert (r ∈ runes s) as Hr.
      { rewrite <- Hruns. apply list_elem_of_In, in_concat. exists [r].
        split; [by apply list_elem_of_In | by left]. }
      split; [done|]. split; [done|]. apply (runes_encodedChar s); [done | lia].
  - intros pre c post. apply chunkString_keeps_chars.
Qed.

Lemma chunkString_bounded_witness :
  (∃ groups : list (list gostring),
     concat groups = runes (golit "a😀bc") ∧
     chunkString (golit "a😀bc") 2 = map (@concat byte) groups ∧
     Forall (okGroup 2) groups) ∧
  Forall (λ c, Z.of_nat (length c) ≤ 2 ∨
               (c ∈ runes (golit "a😀bc") ∧ 2 < Z.of_nat (length c) ∧ encodedChar c = true))
         (chunkString (golit "a😀bc") 2) ∧
  (∀ pre c post : gostring,
     golit "a😀bc" = pre ++ c ++ post → encodedChar c = true →
     ∃ before x y after,
       chunkString (golit "a😀bc") 2 = before ++ (x ++ c ++ y) :: after ∧
       concat before ++ x = pre ∧ y ++ concat after = post).
Proof. apply (chunkString_bounded (golit "a😀bc") 2). lia. Defined.



(** ** The cache *)

Lemma getCache_hit q w v :
  getCache q w = (v, true) ↔
  ∃ e, cache w !! q = Some e ∧ now w < expiresAt e ∧ v = response e.
Proof.
  unfold getCache. split.
  - destruct (cache w !! q) as [e|]; [|done].
    destruct (Z.ltb_spec (now w) (expiresAt e)); [|done].
    intros [= <-]. eauto.
  - intros (e & -> & Hlt & ->).
    destruct (Z.ltb_spec (now w) (expiresAt e)); [done | lia].
Qed.

Lemma getCache_miss q w :
  snd (getCache q w) = false ↔
  cache w !! q = None ∨ ∃ e, cache w !! q = Some e ∧ expiresAt e ≤ now w.
Proof.
  unfold getCache. split.
  - destruct (cache w !! q) as [e|]; [|by left].
    destruct (Z.ltb_spec (now w) (expiresAt e)); [done|]. right. eauto.
  - intros [->|(e & -> & Hle)]; [done|].
    destruct (Z.ltb_spec (now w) (expiresAt e)); [lia | done].
Qed.

Lemma getCache_miss_value q w : snd (getCache q w) = false → getCache q w = ([], false).
Proof.
  unfold getCache. destruct (cache w !! q) as [e|]; [|done].
  by destruct (now w <? expiresAt e).
Qed.

Lemma getCache_cases q w :
  (∃ e, cache w !! q = Some e ∧ now w < expiresAt e ∧ getCache q w = (response e, true)) ∨
  getCache q w = ([], false).
Proof.
  unfold getCache. destruct (cache w !! q) as [e|]; [|by right].
  destruct (Z.ltb_spec (now w) (expiresAt e)); [left; eauto | by right].
Qed.

(** C9: [getCache] reports not found exactly when the map has no entry for
    the key or the entry's [expiresAt] is not after the current time (an
    entry counts only while [now < expiresAt]), and otherwise returns the
    stored response; [setCache] stores the value with [expiresAt] equal to
    the current time plus [cacheDuration] (one hour), replacing whatever was
    stored for the key and touching nothing else. *)
Theorem cache_get_set (q : gostring) (w : World) :
  (snd (getCache q w) = false ↔
     cache w !! q = None ∨ ∃ e, cache w !! q = Some e ∧ expiresAt e ≤ now w) ∧
  (∀ v, getCache q w = (v, true) ↔
     ∃ e, cache w !! q = Some e ∧ now w < expiresAt e ∧ v = response e) ∧
  (∀ res,
     cache (setCache q res w) !! q =
       Some {| response := res; expiresAt := now w + cacheDuration |} ∧
     (∀ q', q' ≠ q → cache (setCache q res w) !! q' = cache w !! q') ∧
     setCache q res w =
       withCache w (<[q := {| response := res; expiresAt := now w + 3600000000000 |}]> (cache w))).
Proof.
  split; [apply getCache_miss|]. split; [intros v; apply getCache_hit|].
  intros res. unfold setCache. simpl. split; [apply lookup_insert_eq|].
  split; [|reflexivity]. intros q' Hne. by apply lookup_insert_ne.
Qed.

(** ** Sequential calls *)

Lemma withLocked_roundtrip w :
  inFlightLocked w = false → withLocked (withLocked w true) false = w.
Proof. destruct w; simpl; intros ->; reflexivity. Qed.

Lemma closeThen_open ch p w :
  ch ∉ closed w → closeThen ch p w = Some (p, closeChan ch w).
Proof. intros H. unfold closeThen. by destruct (decide (ch ∈ closed w)). Qed.

Lemma closeThen_closed ch p w :
  ch ∈ closed w → closeThen ch p w = Some (Panic, w).
Proof. intros H. unfold closeThen. by destruct (decide (ch ∈ closed w)). Qed.

Section Sequential.
Variable llm : LLM.

Lemma runAlone_step fuel q p w p' w' :
  step llm q p w = Some (p', w') →
  runAlone llm (S fuel) q p w = runAlone llm fuel q p' w'.
Proof.
  intros H. destruct p; try (simpl in H; discriminate); cbn [runAlone]; by rewrite H.
Qed.

Lemma runAlone_return fuel q r e w :
  runAlone llm fuel q (Return r e) w = Returned r e w.
Proof. by destruct fuel. Qed.

Lemma runAlone_panic fuel q w : runAlone llm fuel q Panic w = Panicked w.
Proof. by destruct fuel. Qed.

Lemma runAlone_lock_wait fuel q p w :
  inFlightLocked w = true → p = L140 ∨ (∃ ch r, p = L171 ch r) →
  runAlone llm (S fuel) q p w = Blocked p w.
Proof.
  intros Hl [->|(ch & r & ->)]; simpl; unfold lockThen; by rewrite Hl.
Qed.

Lemma runAlone_chan_wait fuel q ch w :
  ch ∉ closed w → runAlone llm (S fuel) q (L146 ch) w = Blocked (L146 ch) w.
Proof. intros Hopen. simpl. by destruct (decide (ch ∈ closed w)). Qed.

Lemma step_L134_hit q w v :
  getCache q w = (v, true) → step llm q L134 w = Some (Return v None, w).
Proof. intros H. unfold step. by rewrite H. Qed.

Lemma step_L134_miss q w :
  getCache q w = ([], false) → step llm q L134 w = Some (L140, w).
Proof. intros H. unfold step. by rewrite H. Qed.

Lemma step_L147_miss q ch w :
  getCache q w = ([], false) →
  step llm q (L147 ch) w
    = Some (Return [] (Some (errors.New "upstream generation failed")), w).
Proof. intros H. unfold step. by rewrite H. Qed.


Lemma call_hit q w v :
  getCache q w = (v, true) → getOrCreateLLMRequest llm q w = Returned v None w.
Proof.
  intros H. unfold getOrCreateLLMRequest.
  rewrite (runAlone_step _ _ _ _ _ _ (step_L134_hit q w v H)).
  apply runAlone_return.
Qed.

Lemma call_locked q w :
  getCache q w = ([], false) → inFlightLocked w = true →
  getOrCreateLLMRequest llm q w = Blocked L140 w.
Proof.
  intros Hmiss Hlocked. unfold getOrCreateLLMRequest.
  rewrite (runAlone_step _ _ _ _ _ _ (step_L134_miss q w Hmiss)).
  apply runAlone_lock_wait; auto.
Qed.

Lemma call_follow q w ch :
  getCache q w = ([], false) → inFlightLocked w = false →
  inFlightRequests w !! q = Some ch →
  getOrCreateLLMRequest llm q w =
    if decide (ch ∈ closed w)
    then Returned [] (Some (errors.New "upstream generation failed")) w
    else Blocked (L146 ch) w.
Proof.
  intros Hmiss Hfree Hslot. unfold getOrCreateLLMRequest.
  rewrite (runAlone_step _ _ _ _ _ _ (step_L134_miss q w Hmiss)).
  rewrite (runAlone_step _ _ L140 w L141 (withLocked w true))
    by (simpl; unfold lockThen; by rewrite Hfree).
  rewrite (runAlone_step _ _ L141 _ (L143 ch) (withLocked w true))
    by (simpl; by rewrite Hslot).
  rewrite (runAlone_step _ _ (L143 ch) _ (L146 ch) w)
    by (simpl; unfold unlockThen; simpl; by rewrite withLocked_roundtrip).
  destruct (decide (ch ∈ closed w)) as [Hin|Hout].
  - rewrite (runAlone_step _ _ (L146 ch) w (L147 ch) w)
      by (simpl; by destruct (decide (ch ∈ closed w))).
    rewrite (runAlone_step _ _ _ _ _ _ (step_L147_miss q ch w Hmiss)).
    apply runAlone_return.
  - by apply runAlone_chan_wait.
Qed.

Lemma call_register q w :
  getCache q w = ([], false) → inFlightLocked w = false →
  inFlightRequests w !! q = None →
  getOrCreateLLMRequest llm q w
    = runAlone llm 6 q (L159 (nextChan w)) (registered q w).
Proof.
  intros Hmiss Hfree Hslot. unfold getOrCreateLLMRequest.
  rewrite (runAlone_step _ _ _ _ _ _ (step_L134_miss q w Hmiss)).
  rewrite (runAlone_step _ _ L140 w L141 (withLocked w true))
    by (simpl; unfold lockThen; by rewrite Hfree).
  rewrite (runAlone_step _ _ L141 _ L155 (withLocked w true))
    by (simpl; by rewrite Hslot).
  erewrite (runAlone_step _ _ L155) by (simpl; reflexivity).
  erewrite (runAlone_step _ _ (L157 _)) by (simpl; reflexivity).
  reflexivity.
Qed.

Lemma call_lead q w :
  getCache q w = ([], false) → inFlightLocked w = false →
  inFlightRequests w !! q = None → nextChan w ∉ closed w →
  getOrCreateLLMRequest llm q w =
    match llm (length (llmCalls w)) q with
    | (_, Some e) => Returned [] (Some e) (afterFailure q w)
    | (r, None) => Returned r None (afterSuccess q r w)
    end.
Proof.
  intros Hmiss Hfree Hslot Hfresh. rewrite call_register by done.
  destruct (llm (length (llmCalls w)) q) as [r [e|]] eqn:Hllm.
  - erewrite (runAlone_step _ _ (L159 _)) by (simpl; rewrite Hllm; reflexivity).
    erewrite (runAlone_step _ _ (L163 _ _))
      by (simpl; by rewrite closeThen_open).
    apply runAlone_return.
  - erewrite (runAlone_step _ _ (L159 _)) by (simpl; rewrite Hllm; reflexivity).
    erewrite (runAlone_step _ _ (L170 _ _)) by (simpl; reflexivity).
    erewrite (runAlone_step _ _ (L171 _ _)) by (simpl; reflexivity).
    erewrite (runAlone_step _ _ (L172 _ _)) by (simpl; reflexivity).
    erewrite (runAlone_step _ _ (L173 _ _)) by (simpl; reflexivity).
    erewrite (runAlone_step _ _ (L176 _ _))
      by (simpl; by rewrite closeThen_open).
    rewrite runAlone_return. unfold afterSuccess, setCache. simpl.
    by rewrite delete_insert_eq.
Qed.

Lemma call_lead_stale q w :
  getCache q w = ([], false) → inFlightLocked w = false →
  inFlightRequests w !! q = None → nextChan w ∈ closed w →
  ∃ w', getOrCreateLLMRequest llm q w = Panicked w'.
Proof.
  intros Hmiss Hfree Hslot Hstale. rewrite call_register by done.
  destruct (llm (length (llmCalls w)) q) as [r [e|]] eqn:Hllm.
  - erewrite (runAlone_step _ _ (L159 _)) by (simpl; rewrite Hllm; reflexivity).
    erewrite (runAlone_step _ _ (L163 _ _))
      by (simpl; by rewrite closeThen_closed).
    eexists. apply runAlone_panic.
  - erewrite (runAlone_step _ _ (L159 _)) by (simpl; rewrite Hllm; reflexivity).
    erewrite (runAlone_step _ _ (L170 _ _)) by (simpl; reflexivity).
    erewrite (runAlone_step _ _ (L171 _ _)) by (simpl; reflexivity).
    erewrite (runAlone_step _ _ (L172 _ _)) by (simpl; reflexivity).
    erewrite (runAlone_step _ _ (L173 _ _)) by (simpl; reflexivity).
    erewrite (runAlone_step _ _ (L176 _ _))
      by (simpl; by rewrite closeThen_closed).
    eexists. apply runAlone_panic.
Qed.
End Sequential.

Section SequentialClaims.
Variable llm : LLM.

(** A call made alone returns, waits for ever or panics: 11 steps are
    always enough. *)
Lemma call_total q w : getOrCreateLLMRequest llm q w ≠ OutOfFuel.
Proof.
  destruct (getCache_cases q w) as [(e & _ & _ & Hhit)|Hmiss].
  { by rewrite (call_hit _ _ _ _ Hhit). }
  destruct (inFlightLocked w) eqn:Hl.
  { by rewrite call_locked. }
  destruct (inFlightRequests w !! q) as [ch|] eqn:Hslot.
  { rewrite (call_follow _ _ _ ch) by done. by destruct (decide _). }
  destruct (decide (nextChan w ∈ closed w)) as [Hin|Hnotin].
  { destruct (call_lead_stale llm q w) as [w' ->]; done. }
  rewrite call_lead by done. by destruct (llm _ _) as [r [e|]].
Qed.

(** What holds of a fresh entry: when a call for [q] returns a response
    [r] without error, the cache holds an entry for [q] with that response
    (expiring one hour after the call when the remote service was asked);
    and a later call for [q], with any remote service, made while that
    entry is in the cache and not yet expired, returns [r] at once and
    leaves the world as it was: no call of [getLLMResponse], no access to
    the registry.  Whether the entry is still there when the later call
    is made is another matter: a leader that missed the cache earlier may
    have replaced it. *)
Lemma cache_hit_within_ttl q w r w' :
  getOrCreateLLMRequest llm q w = Returned r None w' →
  ∃ e, cache w' !! q = Some e ∧ response e = r ∧
    (llmCalls w' ≠ llmCalls w → expiresAt e = now w + cacheDuration) ∧
    ∀ (llm2 : LLM) (w2 : World),
      cache w2 !! q = Some e → now w2 < expiresAt e →
      getOrCreateLLMRequest llm2 q w2 = Returned r None w2.
Proof.
  intros Hcall.
  assert (∀ e, response e = r → ∀ (llm2 : LLM) (w2 : World),
            cache w2 !! q = Some e → now w2 < expiresAt e →
            getOrCreateLLMRequest llm2 q w2 = Returned r None w2) as Hagain.
  { intros e <- llm2 w2 He Hlt. apply call_hit. apply getCache_hit. eauto. }
  destruct (getCache_cases q w) as [(e & He & Hlt & Hhit)|Hmiss].
  { rewrite (call_hit _ _ _ _ Hhit) in Hcall. injection Hcall as <- <-.
    exists e. split; [done|]. split; [done|]. split; [done|]. by apply Hagain. }
  destruct (inFlightLocked w) eqn:Hl.
  { by rewrite call_locked in Hcall. }
  destruct (inFlightRequests w !! q) as [ch|] eqn:Hslot.
  { rewrite (call_follow _ _ _ ch) in Hcall by done. by destruct (decide _). }
  destruct (decide (nextChan w ∈ closed w)) as [Hin|Hnotin].
  { destruct (call_lead_stale llm q w) as [w'' Hp]; try done. by rewrite Hp in Hcall. }
  rewrite call_lead in Hcall by done.
  destruct (llm _ _) as [r' [e|]]; [done|]. injection Hcall as <- <-.
  exists {| response := r'; expiresAt := now w + cacheDuration |}.
  split; [apply lookup_insert_eq|]. split; [done|]. split; [done|]. by apply Hagain.
Qed.

(** X3: when a request for [q] led and was answered, a call for [q] made
    once the entry has expired (one hour later or more) misses the cache,
    finds no slot, leads again and calls [getLLMResponse] anew. *)
Theorem expired_entry_regenerates q w r t :
  getCache q w = ([], false) → inFlightLocked w = false →
  inFlightRequests w !! q = None →
  (∀ ch, ch ∈ closed w → (ch < nextChan w)%nat) →
  llm (length (llmCalls w)) q = (r, None) →
  now w + cacheDuration ≤ t →
  getOrCreateLLMRequest llm q w = Returned r None (afterSuccess q r w) ∧
  getOrCreateLLMRequest llm q (withNow (afterSuccess q r w) t) =
    match llm (S (length (llmCalls w))) q with
    | (_, Some e) =>
      Returned [] (Some e) (afterFailure q (withNow (afterSuccess q r w) t))
    | (r', None) =>
      Returned r' None (afterSuccess q r' (withNow (afterSuccess q r w) t))
    end.
Proof.
  intros Hmiss Hfree Hslot Hclosed Hllm Ht.
  assert (nextChan w ∉ closed w) as Hfresh.
  { intros Hin. apply Hclosed in Hin. lia. }
  split.
  - rewrite call_lead by done. by rewrite Hllm.
  - rewrite call_lead.
    + simpl. rewrite length_app. simpl. by rewrite Nat.add_1_r.
    + apply getCache_miss_value, getCache_miss. right. simpl.
      eexists. split; [apply lookup_insert_eq | simpl; lia].
    + reflexivity.
    + simpl. apply lookup_delete_eq.
    + simpl. set_unfold. intros [Heq|Hin]; [lia|]. apply Hclosed in Hin. lia.
Qed.

End SequentialClaims.


Lemma cache_hit_within_ttl_witness :
  ∃ e, cache (afterSuccess (golit "q") (golit "answer") (emptyWorld 0)) !! golit "q" = Some e ∧
    response e = golit "answer" ∧
    (llmCalls (afterSuccess (golit "q") (golit "answer") (emptyWorld 0)) ≠ llmCalls (emptyWorld 0) →
     expiresAt e = now (emptyWorld 0) + cacheDuration) ∧
    ∀ (llm2 : LLM) (w2 : World),
      cache w2 !! golit "q" = Some e → now w2 < expiresAt e →
      getOrCreateLLMRequest llm2 (golit "q") w2 = Returned (golit "answer") None w2.
Proof.
  apply (cache_hit_within_ttl alwaysAnswer (golit "q") (emptyWorld 0)).
  vm_compute. reflexivity.
Defined.

(** ** Interleavings *)

Section Interleavings.
Variable llm : LLM.


Lemma exec_app s1 s2 c : exec llm (s1 ++ s2) c = exec llm s2 (exec llm s1 c).
Proof. unfold exec. by rewrite fold_left_app. Qed.


Lemma lookup_update (gs : list (gostring * pc)) i g j g' :
  <[i := g]> gs !! j = Some g' →
  (j = i ∧ g' = g) ∨ (j ≠ i ∧ gs !! j = Some g').
Proof.
  intros H. apply list_lookup_insert_Some in H as [(-> & -> & _)|[? ?]]; eauto.
Qed.

(** The three things an event can do. *)
Lemma exec1_cases c e :
  exec1 llm c e = c ∨
  (∃ d, e = Tick d ∧ 0 ≤ d ∧
     exec1 llm c e = {| world := withNow (world c) (now (world c) + d);
                        goroutines := goroutines c |}) ∨
  (∃ i q p p' w', e = Run i ∧ goroutines c !! i = Some (q, p) ∧
     step llm q p (world c) = Some (p', w') ∧
     exec1 llm c e = {| world := w'; goroutines := <[i := (q, p')]> (goroutines c) |}).
Proof.
  destruct e as [j|d]; simpl.
  - destruct (goroutines c !! j) as [[q' p']|] eqn:Hj; [|by left].
    destruct (step llm q' p' (world c)) as [[p'' w'']|] eqn:Hstep; [|by left].
    right; right. by exists j, q', p', p'', w''.
  - destruct (Z.leb_spec 0 d); [|by left]. right; left. by exists d.
Qed.

Lemma lookup_updated (gs : list (gostring * pc)) i g g0 :
  gs !! i = Some g0 → <[i := g]> gs !! i = Some g.
Proof. intros H. apply list_lookup_insert_eq. by eapply lookup_lt_Some. Qed.



End Interleavings.

(** *** The invariant *)

Lemma spawn_lookup qs i q p : spawn qs !! i = Some (q, p) → p = L134.
Proof.
  unfold spawn. rewrite list_lookup_fmap. destruct (qs !! i); simpl; congruence.
Qed.

Lemma wf_initial t qs : wf (initial t qs).
Proof.
  split; simpl; intros.
  all: repeat match goal with
       | H : spawn _ !! _ = Some _ |- _ => apply spawn_lookup in H; subst
       end; simpl in *; try done.
Qed.

Lemma holds_owns p ch : holds p ch → owns p ch.
Proof. by destruct p. Qed.

Lemma leading_holds p : leading p = true → ∃ ch, holds p ch.
Proof. destruct p; simpl; intros H; try discriminate; eauto. Qed.

Ltac split_lookups :=
  repeat match goal with
  | H : <[_ := _]> _ !! _ = Some _ |- _ =>
    apply lookup_update in H as [[-> ?]|[? H]]; simplify_eq
  end.

Section Invariant.
Variable llm : LLM.

Lemma wf_step c i q p p' w' :
  wf c → goroutines c !! i = Some (q, p) →
  step llm q p (world c) = Some (p', w') →
  wf {| world := w'; goroutines := <[i := (q, p')]> (goroutines c) |}.
Proof.
  intros [Hlock Hmutex Hfresh Hclosed Howner Hopen Hslot Habsent Hnopanic] Hi Hstep.
  destruct p; simpl in Hstep; unfold lockThen, unlockThen, closeThen, register in Hstep;
    repeat case_match; simplify_eq.
  (* what the invariant says of the goroutine that moves *)
  all: try pose proof (Hlock _ _ _ Hi I) as Hlocked.
  all: try pose proof (λ j q' p' Hj Hin, Hmutex i j _ _ q' p' Hi Hj I Hin) as Halone.
  all: try pose proof (Hfresh _ _ _ _ Hi eq_refl) as Hmine.
  all: try pose proof (λ j q' p' Hj Hin, Howner i j _ _ q' p' _ Hi Hj eq_refl Hin) as Hsole.
  all: try pose proof (Hopen _ _ _ _ Hi eq_refl) as Hisopen.
  all: try pose proof (Hslot _ _ _ _ Hi eq_refl) as Hmyslot.
  all: try pose proof (Habsent _ _ Hi) as Hnoslot.
  all: split; simpl; intros; split_lookups; simpl in *; try done.
  all: try (by eauto).
  all: try congruence.
  all: try (exfalso; by eauto).
  (* and of another goroutine met in the goal *)
  all: try match goal with
       | Hj : goroutines _ !! _ = Some (_, ?p), Hin : inCS ?p |- _ =>
         try pose proof (Hlock _ _ _ Hj Hin); try pose proof (Halone _ _ _ Hj Hin)
       end.
  all: try match goal with
       | Hj : goroutines _ !! _ = Some (_, L155) |- _ =>
         try pose proof (Halone _ _ _ Hj I)
       end.
  all: try match goal with
       | Hj : goroutines _ !! _ = Some (_, ?p), Hin : holds ?p ?ch |- _ =>
         pose proof (Hslot _ _ _ _ Hj Hin); pose proof (holds_owns _ _ Hin)
       end.
  all: try match goal with
       | Hj : goroutines _ !! _ = Some (_, ?p), Hin : owns ?p ?ch |- _ =>
         pose proof (Hfresh _ _ _ _ Hj Hin); pose proof (Hopen _ _ _ _ Hj Hin)
       end.
  all: try match goal with
       | Hin : _ ∈ closed (world _) |- _ => pose proof (Hclosed _ Hin)
       end.
  all: try congruence.
  all: try (subst; lia).
  (* L155: the new channel is open and takes the free slot of q *)
  - intros Hin. apply Hclosed in Hin. lia.
  - subst. apply lookup_insert_eq.
  - match goal with |- _ !! ?k = _ => destruct (decide (q = k)) as [->|Hne] end;
      [congruence | by rewrite lookup_insert_ne].
  (* L163: close(ch) on the failure path *)
  - match goal with Hin : _ ∈ _ ∪ _ |- _ => set_unfold; destruct Hin as [->|Hin] end;
      [done | by apply Hclosed].
  - set_unfold. intros [->|Hin]; [|done].
    match goal with Hne : _ ≠ i |- _ => apply Hne; symmetry; by eapply Hsole end.
  (* L172: delete(inFlightRequests, q) *)
  - match goal with |- _ !! ?k = _ => destruct (decide (q = k)) as [->|Hne] end;
      [|by rewrite lookup_delete_ne].
    exfalso.
    match goal with H1 : _ !! ?k = Some ?a, H2 : _ !! ?k = Some ?b |- _ =>
      assert (a = b) by congruence; subst end.
    match goal with Hne : _ ≠ i |- _ => apply Hne; symmetry; by eapply Hsole end.
  (* L176: close(ch) on the success path *)
  - match goal with Hin : _ ∈ _ ∪ _ |- _ => set_unfold; destruct Hin as [->|Hin] end;
      [done | by apply Hclosed].
  - set_unfold. intros [->|Hin]; [|done].
    match goal with Hne : _ ≠ i |- _ => apply Hne; symmetry; by eapply Hsole end.
Qed.

Lemma wf_exec1 c e : wf c → wf (exec1 llm c e).
Proof.
  intros Hwf.
  destruct (exec1_cases llm c e)
    as [->|[(d & _ & _ & ->)|(i & q & p & p' & w' & _ & Hi & Hstep & ->)]].
  - done.
  - destruct Hwf. by split.
  - by eapply wf_step.
Qed.

Lemma wf_exec sched c : wf c → wf (exec llm sched c).
Proof.
  revert c. induction sched as [|e sched IH]; intros c Hwf; [done|].
  simpl. apply IH. by apply wf_exec1.
Qed.

End Invariant.

(** *** What holds in every reachable configuration *)

Section Reachable.
Variable llm : LLM.

Lemma wf_reachable t qs sched : wf (exec llm sched (initial t qs)).
Proof. apply wf_exec, wf_initial. Qed.


(** X2: no goroutine of a reachable configuration has panicked:
    [inFlightMutex] is held whenever it is unlocked, and no channel is
    closed twice. *)
Theorem never_panics t qs sched i q p :
  goroutines (exec llm sched (initial t qs)) !! i = Some (q, p) →
  panicked p = false.
Proof.
  intros Hi. pose proof (wf_nopanic _ (wf_reachable t qs sched) _ _ _ Hi).
  by destruct p.
Qed.

(** X1: in a reachable configuration, while one goroutine has its channel
    in the slot of [q] (from the insertion at line 156 up to the removal
    at line 172, the call of [getLLMResponse] included), no other
    goroutine serving [q] is between those lines. *)
Theorem one_leader_at_a_time t qs sched i j q p p' :
  let c := exec llm sched (initial t qs) in
  goroutines c !! i = Some (q, p) → goroutines c !! j = Some (q, p') →
  i ≠ j → leading p = true → leading p' = false.
Proof.
  intros c Hi Hj Hne Hp.
  destruct (leading p') eqn:Hp'; [exfalso | done].
  apply leading_holds in Hp as [ch Hp]. apply leading_holds in Hp' as [ch' Hp'].
  pose proof (wf_reachable t qs sched) as Hwf. fold c in Hwf.
  pose proof (wf_slot c Hwf _ _ _ _ Hi Hp) as H1.
  pose proof (wf_slot c Hwf _ _ _ _ Hj Hp') as H2.
  assert (ch' = ch) as -> by congruence.
  apply Hne. eapply (wf_owner c Hwf i j); eauto using holds_owns.
Qed.

(** A failed leader leaves its slot behind. *)

Lemma step_llmCalls q p w p' w' :
  step llm q p w = Some (p', w') →
  llmCalls w' = llmCalls w ∨ (∃ ch, p = L159 ch) ∧ llmCalls w' = llmCalls w ++ [q].
Proof.
  destruct p; simpl; unfold lockThen, unlockThen, closeThen, register;
    repeat case_match; intros; simplify_eq; simpl; eauto.
Qed.

Lemma step_registry q p w p' w' :
  step llm q p w = Some (p', w') →
  closed w ⊆ closed w' ∧
  (inFlightRequests w' = inFlightRequests w ∨
   (p = L155 ∧ inFlightRequests w' = <[q := nextChan w]> (inFlightRequests w)) ∨
   ((∃ ch r, p = L172 ch r) ∧ inFlightRequests w' = delete q (inFlightRequests w))).
Proof.
  destruct p; simpl; unfold lockThen, unlockThen, closeThen, register;
    repeat case_match; intros; simplify_eq; simpl;
    (split; [set_solver | eauto 10]).
Qed.

Lemma poisoned_exec1 q ch c e :
  wf c → poisoned q ch c →
  poisoned q ch (exec1 llm c e) ∧
  filter (λ k, k = q) (llmCalls (world (exec1 llm c e)))
    = filter (λ k, k = q) (llmCalls (world c)).
Proof.
  intros Hwf [Hslot Hclosed].
  destruct (exec1_cases llm c e)
    as [->|[(d & _ & _ & ->)|(i & q' & p & p' & w' & _ & Hi & Hstep & ->)]].
  - by split.
  - by split.
  - unfold poisoned. simpl. split.
    + destruct (step_registry _ _ _ _ _ Hstep)
        as [Hsub [Hreg|[[-> Hreg]|[(ch' & r & ->) Hreg]]]];
        rewrite Hreg; (split; [|set_solver]).
      * done.
      * destruct (decide (q' = q)) as [->|Hne]; [|by rewrite lookup_insert_ne].
        pose proof (wf_absent c Hwf _ _ Hi). congruence.
      * destruct (decide (q' = q)) as [->|Hne]; [|by rewrite lookup_delete_ne].
        exfalso. pose proof (wf_slot c Hwf i q (L172 ch' r) ch' Hi eq_refl).
        assert (ch' = ch) as -> by congruence.
        by eapply (wf_open c Hwf i q (L172 ch r) ch).
    + destruct (step_llmCalls _ _ _ _ _ Hstep) as [->|[[ch' ->] ->]]; [done|].
      rewrite filter_app. destruct (decide (q' = q)) as [->|Hne].
      * exfalso. pose proof (wf_slot c Hwf i q (L159 ch') ch' Hi eq_refl).
        assert (ch' = ch) as -> by congruence.
        by eapply (wf_open c Hwf i q (L159 ch) ch).
      * rewrite filter_cons_False by done. by rewrite filter_nil, app_nil_r.
Qed.

(** Once the slot of [q] holds a closed channel it stays there in every
    continuation, and [getLLMResponse] is not called for [q] again. *)
Lemma poisoned_forever q ch c sched :
  wf c → poisoned q ch c →
  poisoned q ch (exec llm sched c) ∧
  filter (λ k, k = q) (llmCalls (world (exec llm sched c)))
    = filter (λ k, k = q) (llmCalls (world c)).
Proof.
  revert c. induction sched as [|e sched IH]; intros c Hwf Hp; [done|].
  simpl. destruct (poisoned_exec1 q ch c e Hwf Hp) as [Hp' Heq].
  destruct (IH (exec1 llm c e)) as [Hp'' Heq']; [by apply wf_exec1 | done |].
  split; [done | congruence].
Qed.
End Reachable.

(** ** Runs of the sample services *)

(** The first request for "q" leads, is refused by the remote service, and
    returns: 7 steps of goroutine 0. *)
Lemma leader_fails (qs : list gostring) :
  exec failThenAnswer (repeat (Run 0) 7) (initial 0 (golit "q" :: qs)) =
    {| world := afterFailure (golit "q") (emptyWorld 0);
       goroutines := (golit "q", Return [] (Some (errors.New "boom"))) :: spawn qs |}.
Proof. vm_compute. reflexivity. Qed.

Lemma leader_fails_poisoned (qs : list gostring) :
  poisoned (golit "q") 0%nat
    (exec failThenAnswer (repeat (Run 0) 7) (initial 0 (golit "q" :: qs))).
Proof.
  rewrite leader_fails. split; simpl.
  - apply lookup_insert_eq.
  - set_solver.
Qed.

(** C1: the first request for "q" fails and writes no cache entry, and the
    remote service would answer a second attempt; but the slot of "q" is
    still in the registry with its channel closed, so the next call, at any
    time, takes the waiter's path, finds the cache empty and returns
    "upstream generation failed" without calling [getLLMResponse]; and in
    no continuation, whatever further requests for "q" do, is
    [getLLMResponse] called for "q" again. *)
Theorem failed_request_is_replayed (qs : list gostring) (sched : list event) :
  let q := golit "q" in
  let c1 := exec failThenAnswer (repeat (Run 0) 7) (initial 0 (q :: qs)) in
  goroutines c1 !! 0%nat = Some (q, Return [] (Some (errors.New "boom"))) ∧
  cache (world c1) !! q = None ∧
  llmCalls (world c1) = [q] ∧
  failThenAnswer (length (llmCalls (world c1))) q = (golit "answer", None) ∧
  (∀ t : Time,
     getOrCreateLLMRequest failThenAnswer q (withNow (world c1) t) =
       Returned [] (Some (errors.New "upstream generation failed"))
                (withNow (world c1) t)) ∧
  filter (λ k, k = q) (llmCalls (world (exec failThenAnswer sched c1))) = [q].
Proof.
  intros q c1.
  destruct (poisoned_forever failThenAnswer q 0%nat c1 sched) as [_ Hcalls];
    [apply wf_reachable | apply leader_fails_poisoned |].
  rewrite Hcalls. unfold c1, q. rewrite leader_fails. simpl.
  split; [reflexivity|]. split; [reflexivity|]. split; [reflexivity|].
  split; [reflexivity|]. split; [|reflexivity].
  intros t. rewrite (call_follow _ _ _ 0%nat) by reflexivity.
  destruct (decide _) as [|Hout]; [done|]. exfalso. apply Hout. simpl. set_solver.
Qed.

(** C2: when the remote service answers, the leader's call ends with the
    slot of "q" removed; when it fails, the leader returns with its channel
    closed and the slot of "q" still holding that channel, and the slot
    stays so in every continuation. *)
Theorem failed_leader_keeps_slot (qs : list gostring) (sched : list event) :
  let q := golit "q" in
  let ok := exec alwaysAnswer (repeat (Run 0) 11) (initial 0 (q :: qs)) in
  let c1 := exec failThenAnswer (repeat (Run 0) 7) (initial 0 (q :: qs)) in
  (goroutines ok !! 0%nat = Some (q, Return (golit "answer") None) ∧
   inFlightRequests (world ok) !! q = None) ∧
  (goroutines c1 !! 0%nat = Some (q, Return [] (Some (errors.New "boom"))) ∧
   0%nat ∈ closed (world c1) ∧
   inFlightRequests (world c1) !! q = Some 0%nat ∧
   inFlightRequests (world (exec failThenAnswer sched c1)) !! q = Some 0%nat).
Proof.
  intros q ok c1. split.
  - split; vm_compute; reflexivity.
  - destruct (poisoned_forever failThenAnswer q 0%nat c1 sched) as [[Hslot _] _];
      [apply wf_reachable | apply leader_fails_poisoned |].
    destruct (leader_fails_poisoned qs) as [Hslot1 Hclosed1].
    fold q in Hslot1, Hclosed1. fold c1 in Hslot1, Hclosed1.
    split; [|done]. unfold c1, q. by rewrite leader_fails.
Qed.

(** C3: two requests for "q" with the cache empty.  Goroutine 1 leads and
    has its answer in hand when goroutine 0 arrives and misses the cache
    (line 134); goroutine 1 then commits, removes its slot and returns
    before goroutine 0 takes the mutex (line 140); goroutine 0 finds no slot
    and leads in its turn: both return "answer", and [getLLMResponse] has
    been called twice for "q". *)
Theorem stale_miss_generates_twice :
  let q := golit "q" in
  let c1 := exec alwaysAnswer (repeat (Run 1) 6 ++ [Run 0]) (initial 0 [q; q]) in
  let c := exec alwaysAnswer staleMiss (initial 0 [q; q]) in
  goroutines c1 = [(q, L140); (q, L170 0%nat (golit "answer"))] ∧
  cache (world c1) !! q = None ∧
  goroutines c = [(q, Return (golit "answer") None); (q, Return (golit "answer") None)] ∧
  llmCalls (world c) = [q; q].
Proof. vm_compute. repeat split; reflexivity. Qed.


(** C8: inside the TTL the cached value can change.  Three requests for
    "q", the remote service answering "one" and then "two".  Goroutine 1
    leads and has "one" in hand when goroutine 0 misses the cache (line
    134); goroutine 1 commits "one" and returns it: the call succeeded and
    "one" is cached for an hour.  Goroutine 0 then takes the mutex, finds
    no slot, leads, calls [getLLMResponse] a second time and overwrites the
    entry with "two".  Goroutine 2, whose call starts only now, at the same
    instant, hits the cache and returns "two", not the value first
    cached. *)
Theorem cached_value_replaced_within_ttl :
  let q := golit "q" in
  let c1 := exec answerInTurn (repeat (Run 1) 6 ++ [Run 0] ++ repeat (Run 1) 5)
              (initial 0 [q; q; q]) in
  let c2 := exec answerInTurn (repeat (Run 0) 10 ++ [Run 2]) c1 in
  (goroutines c1 = [(q, L140); (q, Return (golit "one") None); (q, L134)] ∧
   cache (world c1) !! q
     = Some {| response := golit "one"; expiresAt := cacheDuration |} ∧
   llmCalls (world c1) = [q]) ∧
  (goroutines c2 = [(q, Return (golit "two") None);
                    (q, Return (golit "one") None);
                    (q, Return (golit "two") None)] ∧
   now (world c2) = now (world c1) ∧
   cache (world c2) !! q
     = Some {| response := golit "two"; expiresAt := cacheDuration |} ∧
   llmCalls (world c2) = [q; q]).
Proof. vm_compute. repeat split; reflexivity. Qed.


Lemma expired_entry_regenerates_witness :
  getOrCreateLLMRequest alwaysAnswer (golit "q") (emptyWorld 0) =
    Returned (golit "answer") None (afterSuccess (golit "q") (golit "answer") (emptyWorld 0)) ∧
  getOrCreateLLMRequest alwaysAnswer (golit "q")
    (withNow (afterSuccess (golit "q") (golit "answer") (emptyWorld 0)) cacheDuration) =
    match alwaysAnswer (S (length (llmCalls (emptyWorld 0)))) (golit "q") with
    | (_, Some e) =>
      Returned [] (Some e)
        (afterFailure (golit "q")
           (withNow (afterSuccess (golit "q") (golit "answer") (emptyWorld 0)) cacheDuration))
    | (r', None) =>
      Returned r' None
        (afterSuccess (golit "q") r'
           (withNow (afterSuccess (golit "q") (golit "answer") (emptyWorld 0)) cacheDuration))
    end.
Proof.
  apply (expired_entry_regenerates alwaysAnswer (golit "q") (emptyWorld 0)
           (golit "answer") cacheDuration).
  - reflexivity.
  - reflexivity.
  - reflexivity.
  - simpl. set_solver.
  - reflexivity.
  - simpl. lia.
Defined.

(** A second request that arrives while the first is being generated waits
    on the channel and returns the same answer; the remote service is asked
    once. *)
Example waiter_gets_answer :
  let q := golit "q" in
  let c := exec alwaysAnswer
             (repeat (Run 0) 5 ++ repeat (Run 1) 5 ++ repeat (Run 0) 6 ++ repeat (Run 1) 2)
             (initial 0 [q; q]) in
  goroutines c = [(q, Return (golit "answer") None); (q, Return (golit "answer") None)] ∧
  llmCalls (world c) = [q].
Proof. vm_compute. split; reflexivity. Qed.

(** When the leader's request fails, the leader returns the error of the
    remote service and the waiter the generic one. *)
Example waiter_gets_generic_error :
  let q := golit "q" in
  let c := exec failThenAnswer
             (repeat (Run 0) 5 ++ repeat (Run 1) 5 ++ repeat (Run 0) 2 ++ repeat (Run 1) 2)
             (initial 0 [q; q]) in
  goroutines c = [(q, Return [] (Some (errors.New "boom")));
                  (q, Return [] (Some (errors.New "upstream generation failed")))] ∧
  llmCalls (world c) = [q].
Proof. vm_compute. split; reflexivity. Qed.

Lemma never_panics_witness :
  panicked (Return (golit "answer") None) = false.
Proof.
  apply (never_panics alwaysAnswer 0 [golit "q"; golit "q"] staleMiss 0%nat (golit "q")).
  vm_compute. reflexivity.
Defined.

Lemma one_leader_at_a_time_witness :
  leading (L146 0%nat) = false.
Proof.
  apply (one_leader_at_a_time alwaysAnswer 0 [golit "q"; golit "q"]
           (repeat (Run 0) 5 ++ repeat (Run 1) 4) 0%nat 1%nat (golit "q")
           (L159 0%nat) (L146 0%nat)).
  - vm_compute. reflexivity.
  - vm_compute. reflexivity.
  - lia.
  - reflexivity.
Defined.

(** * Further properties of the code *)

(** ** More on the chunker *)

Lemma runes_width (s r : gostring) :
  r ∈ runes s → (1 ≤ length r ≤ 4)%nat.
Proof.
  remember (length s) as n eqn:Hn. revert s Hn.
  induction n as [n IH] using lt_wf_ind; intros s Hn Hin.
  destruct s as [|b s]; [by apply elem_of_nil in Hin|].
  rewrite runes_unfold in Hin by done.
  destruct (DecodeRune_width (b :: s)) as [Hw Hmax]; [done|].
  apply elem_of_cons in Hin as [->|Hin].
  - rewrite length_take. simpl in *. lia.
  - eapply (IH (length (drop (firstWidth (b :: s)) (b :: s)))); [| done | done].
    rewrite length_drop. simpl in *. lia.
Qed.

Lemma chunkString_all_within (s : gostring) (chunkSize : Z) :
  4 ≤ chunkSize →
  Forall (λ c, 1 ≤ Z.of_nat (length c) ≤ chunkSize) (chunkString s chunkSize).
Proof.
  intros Hmax.
  assert (Forall (λ c, c ≠ []) (chunkString s chunkSize)) as Hne.
  { apply chunkString_fits_nonempty. destruct s as [|b s]; [unfold firstWidth; simpl; lia|].
    destruct (DecodeRune_width (b :: s)) as [_ Hw]; [done | lia]. }
  destruct (chunkString_groups s chunkSize) as (groups & Hruns & Hchunks & Hok).
  specialize (Hok ltac:(lia)). rewrite Hchunks in *.
  apply Forall_forall. intros c Hc.
  pose proof (proj1 (Forall_forall _ _) Hne c Hc) as Hc1. simpl in Hc1.
  apply list_elem_of_fmap_1 in Hc as (g & -> & Hg).
  split; [destruct (concat g); [done | simpl; lia]|].
  pose proof (proj1 (Forall_forall _ _) Hok g Hg) as [Hfit|(r & -> & Hbig)]; [done|].
  assert (r ∈ runes s) as Hr.
  { rewrite <- Hruns. apply list_elem_of_In, in_concat. exists [r].
    split; [by apply list_elem_of_In | by left]. }
  apply runes_width in Hr. lia.
Qed.

(** X4: a rune of UTF-8 takes at most four bytes ([utf8.UTFMax]), so with
    [chunkSize] at least 4 no rune is wider than a chunk: every chunk that
    [chunkString] returns is non-empty and has at most [chunkSize] bytes,
    whatever the input (invalid UTF-8 included).  The handler calls it with
    255, the longest string a TXT record can carry. *)
Theorem chunkString_utfmax (s : gostring) (chunkSize : Z) :
  4 ≤ chunkSize →
  Forall (λ c, 1 ≤ Z.of_nat (length c) ≤ chunkSize) (chunkString s chunkSize).
Proof. apply chunkString_all_within. Qed.

Lemma chunkString_utfmax_witness :
  Forall (λ c, 1 ≤ Z.of_nat (length c) ≤ 255) (chunkString (golit "ab😀c") 255).
Proof. apply (chunkString_utfmax (golit "ab😀c") 255). lia. Defined.

Lemma width_at (s : gostring) (i : nat) :
  (i < length s)%nat → (1 ≤ firstWidth (drop i s) ≤ 4)%nat.
Proof.
  intros Hi. destruct (DecodeRune_width (drop i s)) as [Hw Hmax];
    [by apply drop_nonempty | lia].
Qed.

Lemma chunkString_last (s : gostring) (chunkSize : Z) (P : list gostring → gostring → Prop) :
  s ≠ [] →
  (∀ st, P (cchunks st) (cbuf st) ∧ (st = chunkInit ∨ cbuf st ≠ []) →
         (ci st < length s)%nat →
         P (cchunks (chunkBody s chunkSize st)) (cbuf (chunkBody s chunkSize st))) →
  P [] [] →
  ∃ full last, chunkString s chunkSize = full ++ [last] ∧ last ≠ [] ∧ P full last.
Proof.
  intros Hs Hbody Hinit. unfold chunkString.
  destruct (chunkLoop_inv s chunkSize
              (λ st, P (cchunks st) (cbuf st) ∧ (st = chunkInit ∨ cbuf st ≠ [])))
    with (fuel := length s) (st := chunkInit) as [[HP Hbuf] Hi].
  - intros st Hst Hlt. split; [by apply Hbody|].
    right. pose proof (runeAt_nonempty s (ci st) Hlt).
    destruct (chunkBody_cases s chunkSize st) as [[_ ->]|[_ ->]]; cbn [cbuf]; [done|].
    intros Hnil. by apply app_eq_nil in Hnil as [_ ?].
  - split; [done | by left].
  - simpl; lia.
  - simpl; lia.
  - destruct Hbuf as [Heq|Hbuf].
    { rewrite Heq in Hi. simpl in Hi. destruct s; [done | simpl in Hi; lia]. }
    destruct (cbuf (chunkLoop (length s) s chunkSize chunkInit)) as [|b buf] eqn:Hb; [done|].
    simpl. exists (cchunks (chunkLoop (length s) s chunkSize chunkInit)), (b :: buf).
    done.
Qed.

Lemma concat_length_ge (n : Z) (full : list gostring) :
  Forall (λ c, n ≤ Z.of_nat (length c)) full →
  Z.of_nat (length full) * n ≤ Z.of_nat (length (concat full)).
Proof.
  induction 1 as [|c full Hc _ IH]; simpl; [lia|].
  rewrite length_app. lia.
Qed.

(** X5: chunks are filled greedily.  On a non-empty input [chunkString]
    returns at least one chunk, the last one is not empty, and every chunk
    before the last was closed because the next rune (at most four bytes)
    did not fit: it holds more than [chunkSize - 4] bytes.  Hence the
    number of chunks before the last, times [chunkSize - 3], is less than
    the length of the input. *)
Theorem chunkString_nearly_full (s : gostring) (chunkSize : Z) :
  s ≠ [] →
  ∃ full last,
    chunkString s chunkSize = full ++ [last] ∧ last ≠ [] ∧
    Forall (λ c, chunkSize - 4 < Z.of_nat (length c)) full ∧
    Z.of_nat (length full) * (chunkSize - 3) < Z.of_nat (length s).
Proof.
  intros Hs.
  destruct (chunkString_last s chunkSize
              (λ full _, Forall (λ c, chunkSize - 4 < Z.of_nat (length c)) full) Hs)
    as (full & last & Heq & Hlast & Hfull).
  - intros st [Hall _] Hlt. pose proof (width_at s (ci st) Hlt).
    destruct (chunkBody_cases s chunkSize st) as [[Hgt ->]|[_ ->]]; cbn [cchunks]; [|done].
    apply Forall_app. split; [done|]. apply Forall_singleton. lia.
  - constructor.
  - exists full, last. split; [done|]. split; [done|]. split; [done|].
    pose proof (chunkString_concat s chunkSize) as Hcat.
    rewrite Heq, concat_app in Hcat. simpl in Hcat. rewrite app_nil_r in Hcat.
    apply (f_equal length) in Hcat. rewrite length_app in Hcat.
    assert (Z.of_nat (length full) * (chunkSize - 3) ≤ Z.of_nat (length (concat full))).
    { apply concat_length_ge. eapply Forall_impl; [done|]. simpl. intros; lia. }
    destruct last; [done|]. simpl in Hcat. lia.
Qed.

Lemma chunkString_nearly_full_witness :
  ∃ full last,
    chunkString (golit "ab😀c") 4 = full ++ [last] ∧ last ≠ [] ∧
    Forall (λ c, 4 - 4 < Z.of_nat (length c)) full ∧
    Z.of_nat (length full) * (4 - 3) < Z.of_nat (length (golit "ab😀c")).
Proof. apply (chunkString_nearly_full (golit "ab😀c") 4). done. Defined.

Lemma firstWidth_ascii (b : byte) (t : gostring) :
  byteZ b < 0x80 → firstWidth (b :: t) = 1%nat.
Proof.
  intros Hb. unfold firstWidth, utf8.DecodeRuneInString, utf8.first.
  destruct (Z.ltb_spec (byteZ b) 128); [reflexivity | lia].
Qed.

Lemma width_at_ascii (s : gostring) (i : nat) :
  Forall (λ b, byteZ b < 0x80) s → (i < length s)%nat →
  firstWidth (drop i s) = 1%nat.
Proof.
  intros Hascii Hi. destruct (drop i s) as [|b t] eqn:Hd.
  { by apply drop_nonempty in Hd. }
  apply firstWidth_ascii.
  apply (proj1 (Forall_forall _ _) Hascii).
  apply (list_elem_of_lookup_2 _ i). rewrite <- (Nat.add_0_r i), <- lookup_drop, Hd. done.
Qed.

(** X6: on a non-empty input of ASCII bytes (each rune one byte wide) and
    a chunk size of at least 1, [chunkString] cuts the input every
    [chunkSize] bytes: every chunk before the last has exactly [chunkSize]
    bytes, and the last has between 1 and [chunkSize]. *)
Theorem chunkString_ascii (s : gostring) (chunkSize : Z) :
  1 ≤ chunkSize → s ≠ [] → Forall (λ b, byteZ b < 0x80) s →
  ∃ full last,
    chunkString s chunkSize = full ++ [last] ∧
    Forall (λ c, Z.of_nat (length c) = chunkSize) full ∧
    1 ≤ Z.of_nat (length last) ≤ chunkSize.
Proof.
  intros Hn Hs Hascii.
  destruct (chunkString_last s chunkSize
              (λ full last, Forall (λ c, Z.of_nat (length c) = chunkSize) full ∧
                            Z.of_nat (length last) ≤ chunkSize) Hs)
    as (full & last & Heq & Hlast & Hfull & Hbound).
  - intros st [[Hall Hle] _] Hlt.
    pose proof (width_at_ascii s (ci st) Hascii Hlt) as Hw.
    destruct (runeAt_length s (ci st) Hlt) as (Hlen & _ & _). rewrite Hw in Hlen.
    destruct (chunkBody_cases s chunkSize st) as [[Hgt ->]|[Hkeep ->]]; cbn [cchunks cbuf];
      rewrite Hw in *.
    + split; [|lia]. apply Forall_app. split; [done|]. apply Forall_singleton. lia.
    + split; [done|]. rewrite length_app. lia.
  - split; [constructor | simpl; lia].
  - exists full, last. split; [done|]. split; [done|].
    destruct last; [done | simpl in *; lia].
Qed.

Lemma chunkString_ascii_witness :
  ∃ full last,
    chunkString (golit "hello world") 4 = full ++ [last] ∧
    Forall (λ c, Z.of_nat (length c) = 4) full ∧
    1 ≤ Z.of_nat (length last) ≤ 4.
Proof.
  apply (chunkString_ascii (golit "hello world") 4); [lia | done |].
  repeat constructor.
Defined.

(** ** [cleanResponse] *)

Lemma replaceFrom_single (fuel : nat) (s : gostring) (a b : byte) :
  (length s ≤ fuel)%nat →
  strings.replaceFrom fuel s [a] [b] = (λ x, if bool_decide (x = a) then b else x) <$> s.
Proof.
  revert s. induction fuel as [|fuel IH]; intros s Hlen.
  - destruct s; [done | simpl in Hlen; lia].
  - destruct s as [|x t]; [done|]. simpl in Hlen.
    cbn [strings.replaceFrom]. unfold strings.HasPrefix. simpl.
    destruct (decide (x = a)) as [->|Hne].
    + rewrite bool_decide_eq_true_2 by done. rewrite bool_decide_eq_true_2 by done.
      simpl. f_equal. rewrite drop_0. apply IH. lia.
    + rewrite bool_decide_eq_false_2 by congruence.
      rewrite bool_decide_eq_false_2 by done.
      f_equal. apply IH. lia.
Qed.

Lemma ReplaceAll_single (s : gostring) (a b : byte) :
  strings.ReplaceAll s [a] [b] = (λ x, if bool_decide (x = a) then b else x) <$> s.
Proof.
  unfold strings.ReplaceAll. case_bool_decide as Heq.
  - injection Heq as ->. transitivity (id <$> s); [by rewrite list_fmap_id|].
    apply list_fmap_ext. intros _ x _. simpl. case_bool_decide; congruence.
  - by apply replaceFrom_single.
Qed.

Lemma cleanResponse_map (text : gostring) : cleanResponse text = cleanByte <$> text.
Proof.
  unfold cleanResponse. rewrite !ReplaceAll_single, <- list_fmap_compose.
  apply list_fmap_ext. intros _ x _. unfold cleanByte. simpl.
  repeat case_bool_decide; subst; done.
Qed.

Lemma cleanByte_not_newline (b : byte) : cleanByte b ≠ LF ∧ cleanByte b ≠ CR.
Proof. unfold cleanByte. repeat case_bool_decide; done. Qed.

Lemma cleanResponse_length (text : gostring) :
  length (cleanResponse text) = length text.
Proof. rewrite cleanResponse_map. apply length_fmap. Qed.

Lemma cleanResponse_no_newline (text : gostring) :
  (LF ∉ cleanResponse text) ∧ (CR ∉ cleanResponse text).
Proof.
  rewrite cleanResponse_map.
  split; intros Hin; apply list_elem_of_fmap_1 in Hin as (b & Hb & _);
    by destruct (cleanByte_not_newline b).
Qed.

(** X7: [cleanResponse] works byte by byte: the result has the length of
    the text, holds no line feed and no carriage return, and at each index
    has a space where the text has a line feed or a carriage return and
    the byte of the text otherwise. *)
Theorem cleanResponse_bytes (text : gostring) :
  length (cleanResponse text) = length text ∧
  (LF ∉ cleanResponse text) ∧ (CR ∉ cleanResponse text) ∧
  ∀ i b, text !! i = Some b →
    cleanResponse text !! i = Some (if bool_decide (b = LF ∨ b = CR) then SP else b).
Proof.
  split; [apply cleanResponse_length|].
  destruct (cleanResponse_no_newline text) as [Hlf Hcr].
  split; [done|]. split; [done|]. rewrite cleanResponse_map.
  intros i b Hi. unfold gostring in *. rewrite list_lookup_fmap, Hi. simpl. f_equal.
    unfold cleanByte. repeat case_bool_decide; intuition congruence.
Qed.

(** X8: [cleanResponse] distributes over concatenation, cleaning twice is
    cleaning once, and a text with no line feed and no carriage return is
    returned as it is. *)
Theorem cleanResponse_compose (a b : gostring) :
  cleanResponse (a ++ b) = cleanResponse a ++ cleanResponse b ∧
  cleanResponse (cleanResponse a) = cleanResponse a ∧
  (LF ∉ a → CR ∉ a → cleanResponse a = a).
Proof.
  rewrite !cleanResponse_map. split; [apply fmap_app|]. split.
  - rewrite <- list_fmap_compose. apply list_fmap_ext. intros _ x _. unfold cleanByte.
    simpl. repeat case_bool_decide; subst; done.
  - intros Hlf Hcr. induction a as [|x a IH]; [done|]. simpl.
    f_equal; [|apply IH; set_solver].
    unfold cleanByte. repeat case_bool_decide; subst; set_solver.
Qed.

(** ** Cleaning and chunking *)

Lemma cleanByte_high (b : byte) : 0x80 ≤ byteZ b → cleanByte b = b.
Proof.
  intros Hb. unfold cleanByte. repeat case_bool_decide; subst; try done;
    vm_compute in Hb; done.
Qed.

Lemma cleanByte_ascii (b : byte) : byteZ b < 0x80 → byteZ (cleanByte b) < 0x80.
Proof.
  intros Hb. unfold cleanByte. repeat case_bool_decide; subst; done.
Qed.

Lemma cleanByte_range (b : byte) (lo hi : Z) :
  0x80 ≤ lo →
  (byteZ (cleanByte b) <? lo) || (hi <? byteZ (cleanByte b))
    = (byteZ b <? lo) || (hi <? byteZ b).
Proof.
  intros Hlo. destruct (Z_lt_le_dec (byteZ b) 0x80) as [Hlt|Hge].
  - pose proof (cleanByte_ascii b Hlt).
    destruct (Z.ltb_spec (byteZ (cleanByte b)) lo); [|lia].
    destruct (Z.ltb_spec (byteZ b) lo); [done | lia].
  - by rewrite cleanByte_high.
Qed.

Lemma accept_lo (b : byte) :
  utf8.first b < utf8.as_ →
  0x80 ≤ utf8.lo (utf8.acceptRanges (Z.shiftr (utf8.first b) 4)).
Proof.
  unfold utf8.first. repeat case_match; vm_compute; congruence.
Qed.

Lemma firstWidth_clean (s : gostring) :
  firstWidth (cleanByte <$> s) = firstWidth s.
Proof.
  destruct s as [|b0 t]; [done|].
  destruct (Z_lt_le_dec (byteZ b0) 0x80) as [Hlt|Hge].
  { simpl. rewrite !firstWidth_ascii; auto using cleanByte_ascii. }
  simpl. rewrite (cleanByte_high b0 Hge).
  unfold firstWidth, utf8.DecodeRuneInString.
  destruct (Z.leb_spec utf8.as_ (utf8.first b0)) as [|Hx]; [done|].
  pose proof (accept_lo b0 Hx) as Hlo.
  simpl length. rewrite length_fmap.
  destruct (_ <? _)%nat; [done|].
  destruct t as [|b1 t1]; [done|]. simpl.
  rewrite (cleanByte_range b1 _ _ Hlo).
  destruct (_ || _); [done|].
  destruct (_ <=? 2)%nat; [done|].
  destruct t1 as [|b2 t2]; [done|]. simpl.
  rewrite (cleanByte_range b2 utf8.locb utf8.hicb) by done.
  destruct (_ || _); [done|].
  destruct (_ <=? 3)%nat; [done|].
  destruct t2 as [|b3 t3]; [done|]. simpl.
  rewrite (cleanByte_range b3 utf8.locb utf8.hicb) by done.
  by destruct (_ || _).
Qed.

Lemma chunkBody_clean (s : gostring) (chunkSize : Z) (st : chunkState) :
  chunkBody (cleanResponse s) chunkSize (cleanState st)
    = cleanState (chunkBody s chunkSize st).
Proof.
  unfold chunkBody, cleanState. cbn [ci cchunks cbuf].
  rewrite !cleanResponse_map. unfold gostring in *.
  rewrite <- fmap_drop. fold (firstWidth (cleanByte <$> drop (ci st) s)).
  rewrite firstWidth_clean. fold (firstWidth (drop (ci st) s)).
  rewrite length_fmap, <- fmap_take.
  destruct (_ >? _); cbn [ci cchunks cbuf]; f_equal.
  - rewrite fmap_app. f_equal.
    change (cleanResponse <$> [cbuf st]) with [cleanResponse (cbuf st)].
    by rewrite cleanResponse_map.
  - by rewrite fmap_app.
Qed.

Lemma chunkLoop_clean (fuel : nat) (s : gostring) (chunkSize : Z) (st : chunkState) :
  chunkLoop fuel (cleanResponse s) chunkSize (cleanState st)
    = cleanState (chunkLoop fuel s chunkSize st).
Proof.
  revert st. induction fuel as [|fuel IH]; intros st; [done|].
  cbn [chunkLoop]. rewrite chunkBody_clean, IH.
  rewrite cleanResponse_length. cbn [cleanState ci].
  by destruct (_ <? _)%nat.
Qed.

(** X9: cleaning and chunking commute.  [cleanResponse] only swaps ASCII
    bytes for an ASCII byte, which changes the width of no rune as
    [utf8.DecodeRuneInString] sees it, so the chunks of the cleaned text are
    the cleaned chunks of the text: the handler may clean before it cuts
    (as it does) or after. *)
Theorem chunkString_cleanResponse (s : gostring) (chunkSize : Z) :
  chunkString (cleanResponse s) chunkSize = cleanResponse <$> chunkString s chunkSize.
Proof.
  unfold chunkString.
  rewrite cleanResponse_length.
  pose proof (chunkLoop_clean (length s) s chunkSize chunkInit) as Hloop.
  change (cleanState chunkInit) with chunkInit in Hloop. rewrite Hloop.
  cbn [cleanState cbuf cchunks].
  rewrite cleanResponse_length.
  destruct (_ <? _)%nat; [|done]. by rewrite fmap_app.
Qed.

(** ** [json.Marshal] on strings *)

Lemma validFrom_fuel (fuel : nat) (s : gostring) :
  (length s ≤ fuel)%nat → json.validFrom fuel s = json.validFrom (length s) s.
Proof.
  revert s. induction fuel as [fuel IH] using lt_wf_ind; intros s Hlen.
  destruct s as [|b s]; [by destruct fuel|].
  destruct fuel as [|fuel]; [simpl in Hlen; lia|].
  destruct (DecodeRune_width (b :: s)) as [[Hw1 Hw2] _]; [done|].
  unfold firstWidth in *.
  change (length (b :: s)) with (S (length s)) in *. cbn [json.validFrom].
  destruct (utf8.DecodeRuneInString (b :: s)) as [c size]. simpl in Hw1, Hw2.
  f_equal.
  rewrite (IH fuel) by (rewrite ?length_drop; simpl; lia).
  rewrite (IH (length s)) by (rewrite ?length_drop; simpl; lia). done.
Qed.

Lemma stringValue_unfold (s : gostring) :
  s ≠ [] →
  json.stringValue s =
    (if (fst (utf8.DecodeRuneInString s) =? utf8.RuneError) && (firstWidth s =? 1)%nat
     then json.replacement else take (firstWidth s) s)
    ++ json.stringValue (drop (firstWidth s) s).
Proof.
  intros Hne. unfold json.stringValue, firstWidth. destruct s as [|b s]; [done|].
  destruct (DecodeRune_width (b :: s)) as [[Hw1 Hw2] _]; [done|]. unfold firstWidth in *.
  change (length (b :: s)) with (S (length s)) in *. cbn [json.validFrom].
  destruct (utf8.DecodeRuneInString (b :: s)) as [c size]. simpl in *.
  f_equal. apply validFrom_fuel. rewrite length_drop. simpl. lia.
Qed.

Lemma decode_ascii (b : byte) (t : gostring) :
  byteZ b < 0x80 → utf8.DecodeRuneInString (b :: t) = (byteZ b, 1%nat).
Proof.
  intros Hb. unfold utf8.DecodeRuneInString, utf8.first. cbv zeta.
  destruct (Z.ltb_spec (byteZ b) 128); [reflexivity | lia].
Qed.

(** A character goes through unchanged. *)
Lemma stringValue_char (c t : gostring) :
  encodedChar c = true → json.stringValue (c ++ t) = c ++ json.stringValue t.
Proof.
  intros Hc. pose proof (encodedChar_nonempty c Hc) as Hne.
  rewrite stringValue_unfold by (destruct c; done).
  rewrite firstWidth_encodedChar by done.
  rewrite take_app_length, drop_app_length. f_equal.
  destruct c as [|b [|b1 c]]; [done | | cbn [length Nat.eqb]; by rewrite andb_false_r].
  simpl app. rewrite decode_ascii; [|unfold encodedChar, between in Hc; lia].
  simpl. unfold encodedChar, between in Hc.
  destruct (Z.eqb_spec (byteZ b) utf8.RuneError) as [Heq|]; [|done].
  unfold utf8.RuneError in Heq. lia.
Qed.

Lemma stringValue_nil : json.stringValue [] = [].
Proof. reflexivity. Qed.

(** Valid UTF-8 is left as it is. *)
Lemma stringValue_valid (cs : list gostring) :
  Forall (λ c, encodedChar c = true) cs → json.stringValue (concat cs) = concat cs.
Proof.
  induction 1 as [|c cs Hc _ IH]; [done|]. simpl.
  by rewrite stringValue_char, IH.
Qed.

Lemma stringValue_ascii_prefix (a s : gostring) :
  Forall (λ b, byteZ b < 0x80) a → json.stringValue (a ++ s) = a ++ json.stringValue s.
Proof.
  induction 1 as [|b a Hb _ IH]; [done|].
  change ((b :: a) ++ s) with ([b] ++ a ++ s).
  rewrite stringValue_char, IH; [done|].
  unfold encodedChar, between. pose proof (N2Z.is_nonneg (Byte.to_N b)). unfold byteZ in *.
  apply andb_true_iff. split; lia.
Qed.

(** Each byte that is not part of a character becomes U+FFFD. *)
Example stringValue_invalid :
  json.stringValue [Byte.x61; Byte.xff; Byte.x62] =
    [Byte.x61] ++ json.replacement ++ [Byte.x62].
Proof. reflexivity. Qed.

(** ** [getLLMResponse] *)

Lemma extractText_cases (result : gmap gostring any) :
  extractText result = ([], Some (errors.New "could not read response from LLM")) ∨
  ∃ output second content first text,
    result !! golit "output" = Some (jarray output) ∧
    output !! 1%nat = Some (jobject second) ∧
    second !! golit "content" = Some (jarray content) ∧
    content !! 0%nat = Some (jobject first) ∧
    first !! golit "text" = Some (jstring text) ∧
    extractText result = (cleanResponse text, None).
Proof.
  unfold extractText.
  destruct (result !! golit "output") as [[| | | |output|]|] eqn:H1; try by left.
  destruct (1 <? length output)%nat; [|by left].
  destruct (output !! 1%nat) as [[| | | | |second]|] eqn:H2; try by left.
  destruct (second !! golit "content") as [[| | | |content|]|] eqn:H3; try by left.
  destruct (0 <? length content)%nat; [|by left].
  destruct (content !! 0%nat) as [[| | | | |first]|] eqn:H4; try by left.
  destruct (first !! golit "text") as [[| | |text| |]|] eqn:H5; try by left.
  right. exists output, second, content, first, text. repeat split; assumption || reflexivity.
Qed.

Lemma getLLMResponse_ok (apiKey : gostring) (send : llmRequest → httpReply)
    (q r : gostring) :
  getLLMResponse apiKey send q = (r, None) → ∃ text, r = cleanResponse text.
Proof.
  unfold getLLMResponse.
  destruct (send _) as [err|err|err|result]; [intros [=]; done..|].
  destruct (extractText_cases result)
    as [->|(output & second & content & first & text & _ & _ & _ & _ & _ & ->)];
    intros [=]. eauto.
Qed.

(** The request [getLLMResponse] sends for [q]. *)
Lemma llmPrompt_ascii : Forall (λ b, byteZ b < 0x80) llmPrompt.
Proof.
  apply Forall_forall. intros b Hb. apply Z.ltb_lt.
  revert b Hb. apply Forall_forall, Forall_fold_right. vm_compute. tauto.
Qed.

Lemma getLLMResponse_request (apiKey q : gostring) :
  {| reqModel := json.stringValue (golit "gpt-5-nano");
     reqInput := json.stringValue (llmPrompt ++ q);
     reqAuthorization := golit "Bearer " ++ apiKey |}
  = {| reqModel := golit "gpt-5-nano";
       reqInput := llmPrompt ++ json.stringValue q;
       reqAuthorization := golit "Bearer " ++ apiKey |}.
Proof. by rewrite (stringValue_ascii_prefix llmPrompt q llmPrompt_ascii). Qed.

(** X10: what [getLLMResponse] sends and returns.  The request names the
    model gpt-5-nano, has the API key as bearer token, and its input, as
    read from the JSON body, is the prompt followed by the query in which
    [json.Marshal] has replaced each byte that is not part of a character
    by U+FFFD (a query that is valid UTF-8 is sent as it is).  With an
    error the text returned is empty, and when the reply was received and
    decoded the error is "could not read response from LLM".  Without
    error, the reply was decoded, it has a string at
    [output[1].content[0].text], the text returned is that string cleaned,
    and it holds no line feed and no carriage return. *)
Theorem getLLMResponse_result (apiKey : gostring) (send : llmRequest → httpReply)
    (q r : gostring) (e : option error) :
  getLLMResponse apiKey send q = (r, e) →
  (∀ cs, q = concat cs → Forall (λ c, encodedChar c = true) cs →
         json.stringValue q = q) ∧
  match e with
  | Some err =>
    r = [] ∧
    (∀ result, send {| reqModel := golit "gpt-5-nano";
                       reqInput := llmPrompt ++ json.stringValue q;
                       reqAuthorization := golit "Bearer " ++ apiKey |} = Decoded result →
               err = errors.New "could not read response from LLM")
  | None =>
    (LF ∉ r) ∧ (CR ∉ r) ∧
    ∃ result output second content first text,
      send {| reqModel := golit "gpt-5-nano";
              reqInput := llmPrompt ++ json.stringValue q;
              reqAuthorization := golit "Bearer " ++ apiKey |} = Decoded result ∧
      result !! golit "output" = Some (jarray output) ∧
      output !! 1%nat = Some (jobject second) ∧
      second !! golit "content" = Some (jarray content) ∧
      content !! 0%nat = Some (jobject first) ∧
      first !! golit "text" = Some (jstring text) ∧
      r = cleanResponse text
  end.
Proof.
  intros Hcall. split.
  { intros cs -> Hcs. by apply stringValue_valid. }
  revert Hcall. unfold getLLMResponse. cbv zeta. rewrite getLLMResponse_request.
  destruct (send _) as [err|err|err|result] eqn:Hsend;
    try (intros [= <- <-]; split; [done | intros ? [=]]).
  destruct (extractText_cases result)
    as [->|(output & second & content & first & text & H1 & H2 & H3 & H4 & H5 & ->)].
  - intros [= <- <-]. split; [done|]. by intros ? _.
  - intros [= <- <-]. destruct (cleanResponse_no_newline text) as [Hlf Hcr].
    split; [done|]. split; [done|].
    by exists result, output, second, content, first, text.
Qed.

Lemma getLLMResponse_result_witness :
  (∀ cs, golit "capital of France?" = concat cs →
         Forall (λ c, encodedChar c = true) cs →
         json.stringValue (golit "capital of France?") = golit "capital of France?") ∧
  (LF ∉ golit "Paris. Yes.") ∧ (CR ∉ golit "Paris. Yes.") ∧
  ∃ result output second content first text,
    (λ _ : llmRequest, Decoded sampleReply)
      {| reqModel := golit "gpt-5-nano";
         reqInput := llmPrompt ++ json.stringValue (golit "capital of France?");
         reqAuthorization := golit "Bearer " ++ golit "sk" |} = Decoded result ∧
    result !! golit "output" = Some (jarray output) ∧
    output !! 1%nat = Some (jobject second) ∧
    second !! golit "content" = Some (jarray content) ∧
    content !! 0%nat = Some (jobject first) ∧
    first !! golit "text" = Some (jstring text) ∧
    golit "Paris. Yes." = cleanResponse text.
Proof.
  apply (getLLMResponse_result (golit "sk") (λ _, Decoded sampleReply)
           (golit "capital of France?") (golit "Paris. Yes.") None).
  vm_compute. reflexivity.
Defined.

(** A query that is not valid UTF-8 does not reach the service as it is. *)
Example getLLMResponse_invalid_query :
  json.stringValue (llmPrompt ++ [Byte.xff]) = llmPrompt ++ json.replacement.
Proof. vm_compute. reflexivity. Qed.

(** A reply whose [output] has a single element is refused, text or not. *)
Example getLLMResponse_single_output :
  getLLMResponse (golit "sk")
    (λ _, Decoded {[ golit "output" :=
            jarray [ jobject {[ golit "content" :=
              jarray [ jobject {[ golit "text" := jstring (golit "Paris.") ]} ] ]} ] ]})
    (golit "capital of France?")
  = ([], Some (errors.New "could not read response from LLM")).
Proof. vm_compute. reflexivity. Qed.

(** ** The cache, once more *)

(** X11: an entry set at time [now w] is read back by [getCache] at any
    time before [now w + cacheDuration] and reported missing from then on
    (the entry is still in the map: nothing removes it); setting a key does
    not change what is read for another key; and setting a key twice at the
    same time is setting it once to the second value. *)
Theorem cache_roundtrip (q r : gostring) (w : World) (t : Time) :
  getCache q (withNow (setCache q r w) t)
    = (if t <? now w + cacheDuration then (r, true) else ([], false)) ∧
  (∀ q', q' ≠ q → getCache q' (withNow (setCache q r w) t) = getCache q' (withNow w t)) ∧
  (∀ r', setCache q r' (setCache q r w) = setCache q r' w).
Proof.
  split; [|split].
  - unfold getCache, setCache. simpl. by rewrite lookup_insert_eq.
  - intros q' Hne. unfold getCache, setCache. simpl. by rewrite lookup_insert_ne.
  - intros r'. unfold setCache, withCache. simpl. by rewrite insert_insert_eq.
Qed.

(** ** The handler *)

Section HandlerProofs.
Variable llm : LLM.


Lemma handle_cases (r : dns.Msg) (w : World) :
  (dns.Questions r = [] ∧
   handleDNSRequest llm r w = Wrote (replyTo r dns.RcodeServerFailure) w) ∨
  (∃ q rest, dns.Questions r = q :: rest ∧ dns.Qtype q ≠ dns.TypeTXT ∧
   handleDNSRequest llm r w = Wrote (replyTo r dns.RcodeNotImplemented) w) ∨
  (∃ q rest, dns.Questions r = q :: rest ∧ dns.Qtype q = dns.TypeTXT ∧
   match getOrCreateLLMRequest llm (dns.Name q) w with
   | Returned response (Some err) w' =>
     handleDNSRequest llm r w = Wrote (replyTo r dns.RcodeServerFailure) w'
   | Returned response None w' =>
     handleDNSRequest llm r w =
       Wrote (dns.withAnswer (replyTo r dns.RcodeSuccess)
                [{| dns.Hdr := {| dns.HdrName := dns.Name q; dns.Rrtype := dns.TypeTXT;
                                  dns.Class := dns.ClassINET; dns.Ttl := 0;
                                  dns.Rdlength := 0 |};
                    dns.Txt := chunkString response 255 |}]) w'
   | o => handleDNSRequest llm r w = NotServed o
   end).
Proof.
  unfold handleDNSRequest. destruct (dns.Questions r) as [|q rest] eqn:Hq; [by left|].
  right. destruct (Z.eqb_spec (dns.Qtype q) dns.TypeTXT) as [Heq|Hne]; simpl.
  - right. exists q, rest. split; [done|]. split; [done|].
    by destruct (getOrCreateLLMRequest llm (dns.Name q) w) as [resp [err|] w'| | |].
  - left. by exists q, rest.
Qed.

(** X12: a request with no question, or whose first question is not of
    type TXT, is answered without any call of [getOrCreateLLMRequest]: the
    world is unchanged, the reply is a response with the request's id and
    no answer record, and its result code is SERVFAIL with no question and
    NOTIMP otherwise. *)
Theorem handleDNSRequest_rejects (r : dns.Msg) (w : World) :
  (∀ q rest, dns.Questions r = q :: rest → dns.Qtype q ≠ dns.TypeTXT) →
  ∃ m, handleDNSRequest llm r w = Wrote m w ∧
       dns.Answer m = [] ∧ dns.Id m = dns.Id r ∧ dns.Response m = true ∧
       dns.Rcode m = match dns.Questions r with
                     | [] => dns.RcodeServerFailure
                     | _ :: _ => dns.RcodeNotImplemented
                     end.
Proof.
  intros Hq.
  destruct (handle_cases r w)
    as [[Hnil ->]|[(q & rest & Hcons & Hty & ->)|(q & rest & Hcons & Hty & _)]].
  - eexists. split; [done|]. by rewrite Hnil.
  - eexists. split; [done|]. by rewrite Hcons.
  - by destruct (Hq q rest Hcons).
Qed.


End HandlerProofs.

Lemma handleDNSRequest_rejects_witness :
  ∃ m, handleDNSRequest alwaysAnswer dns.newMsg (emptyWorld 0) = Wrote m (emptyWorld 0) ∧
       dns.Answer m = [] ∧ dns.Id m = dns.Id dns.newMsg ∧ dns.Response m = true ∧
       dns.Rcode m = match dns.Questions dns.newMsg with
                     | [] => dns.RcodeServerFailure
                     | _ :: _ => dns.RcodeNotImplemented
                     end.
Proof.
  apply (handleDNSRequest_rejects alwaysAnswer dns.newMsg (emptyWorld 0)).
  intros q rest Hq. discriminate Hq.
Defined.



(** ** Where responses come from *)

Section Traced.
Variable llm : LLM.

Lemma answered_mono calls q' q r :
  answered llm calls q r → answered llm (calls ++ [q']) q r.
Proof. intros (n & Hn & Hr). exists n. split; [by apply lookup_app_l_Some | done]. Qed.

Lemma refused_mono calls q' q e :
  refused llm calls q e → refused llm (calls ++ [q']) q e.
Proof. intros (n & r & Hn & Hr). exists n, r. split; [by apply lookup_app_l_Some | done]. Qed.

Lemma traced_initial t qs : traced llm (initial t qs).
Proof.
  split; simpl.
  - intros q e He. by rewrite lookup_empty in He.
  - intros i q p r Hi. apply spawn_lookup in Hi as ->. done.
  - intros i q p r e Hi. apply spawn_lookup in Hi as ->. done.
Qed.

Lemma getCache_Some q w v :
  getCache q w = (v, true) → ∃ e, cache w !! q = Some e ∧ v = response e.
Proof. intros H. apply getCache_hit in H as (e & He & _ & ->). eauto. Qed.

Lemma traced_step c i q p p' w' :
  traced llm c → goroutines c !! i = Some (q, p) →
  step llm q p (world c) = Some (p', w') →
  traced llm {| world := w'; goroutines := <[i := (q, p')]> (goroutines c) |}.
Proof.
  intros [Hcache Hok Herr] Hi Hstep.
  pose proof (λ r, Hok _ _ _ r Hi) as Hmine. pose proof (λ r e, Herr _ _ _ r e Hi) as Hmyerr.
  destruct p; simpl in Hstep; unfold lockThen, unlockThen, closeThen, register in Hstep;
    repeat case_match; simplify_eq.
  all: try match goal with H : getCache _ _ = (_, true) |- _ =>
         apply getCache_Some in H as (en & Hen & ->); pose proof (Hcache _ _ Hen) end.
  all: split; simpl; intros; split_lookups; simpl in *; simplify_eq; eauto.
  all: try (by (split; [done | by left])).
  all: try (by eauto using answered_mono).
  all: try (by (edestruct Herr as [? [?|?]]; eauto using refused_mono)).
  - split; [done|]. right. exists (length (llmCalls (world c))). eexists.
    split; [apply list_lookup_middle; done | eassumption].
  - exists (length (llmCalls (world c))).
    split; [apply list_lookup_middle; done | eassumption].
  - match goal with H : <[_ := _]> _ !! _ = Some _ |- _ =>
      apply lookup_insert_Some in H as [[<- <-]|[_ H]] end; simpl; eauto.
Qed.

Lemma traced_exec1 c e : traced llm c → traced llm (exec1 llm c e).
Proof.
  intros Ht.
  destruct (exec1_cases llm c e)
    as [->|[(d & _ & _ & ->)|(i & q & p & p' & w' & _ & Hi & Hstep & ->)]].
  - done.
  - destruct Ht. by split.
  - by eapply traced_step.
Qed.

Lemma traced_exec sched c : traced llm c → traced llm (exec llm sched c).
Proof.
  revert c. induction sched as [|e sched IH]; intros c Ht; [done|].
  simpl. apply IH. by apply traced_exec1.
Qed.

(** X15: nothing is made up.  In every configuration reachable by
    interleaving calls of [getOrCreateLLMRequest] from an empty world, each
    response in the cache under a key, and each response a call for that
    key returned without error, is what a recorded call of [getLLMResponse]
    for that very key answered; and a call that returned an error returned
    the empty text with either the error of a recorded call of
    [getLLMResponse] for its key or "upstream generation failed". *)
Theorem responses_come_from_llm t qs sched :
  let c := exec llm sched (initial t qs) in
  (∀ q e, cache (world c) !! q = Some e →
          answered llm (llmCalls (world c)) q (response e)) ∧
  (∀ i q r, goroutines c !! i = Some (q, Return r None) →
            answered llm (llmCalls (world c)) q r) ∧
  (∀ i q r e, goroutines c !! i = Some (q, Return r (Some e)) →
      r = [] ∧ (e = errors.New "upstream generation failed" ∨
                refused llm (llmCalls (world c)) q e)).
Proof.
  intros c. destruct (traced_exec sched (initial t qs) (traced_initial t qs))
    as [Hcache Hok Herr].
  split; [done|]. split.
  - intros i q r Hi. by eapply Hok.
  - intros i q r e Hi. by eapply Herr.
Qed.
End Traced.

(** X16: with [getLLMResponse] as the remote service, over any network, no
    response in the cache and no text returned by a call of
    [getOrCreateLLMRequest] holds a line feed or a carriage return, in every
    configuration reachable from an empty world. *)
Theorem responses_have_no_newline (apiKey : gostring) (net : nat → llmRequest → httpReply)
    t qs sched :
  let c := exec (llmVia apiKey net) sched (initial t qs) in
  (∀ q e, cache (world c) !! q = Some e → (LF ∉ response e) ∧ (CR ∉ response e)) ∧
  (∀ i q r err, goroutines c !! i = Some (q, Return r err) → (LF ∉ r) ∧ (CR ∉ r)).
Proof.
  intros c.
  destruct (traced_exec (llmVia apiKey net) sched (initial t qs)
              (traced_initial (llmVia apiKey net) t qs)) as [Hcache Hok Herr].
  assert (∀ calls q r, answered (llmVia apiKey net) calls q r → (LF ∉ r) ∧ (CR ∉ r))
    as Hclean.
  { intros calls q r (n & _ & Hn). unfold llmVia in Hn.
    apply getLLMResponse_ok in Hn as [text ->]. apply cleanResponse_no_newline. }
  split.
  - intros q e He. eapply Hclean, Hcache, He.
  - intros i q r [e|] Hi.
    + destruct (Herr i q _ r e Hi eq_refl) as [-> _]. split; apply not_elem_of_nil.
    + eapply Hclean, Hok; [exact Hi | reflexivity].
Qed.

(** ** Counting the calls of the remote service *)

Lemma filter_insert_length {A} (P : A → Prop) `{∀ x, Decision (P x)}
    (l : list A) (i : nat) (x y : A) :
  l !! i = Some x →
  ((P x ↔ P y) → length (filter P (<[i := y]> l)) = length (filter P l)) ∧
  (P x → ¬ P y → S (length (filter P (<[i := y]> l))) = length (filter P l)).
Proof.
  revert i. induction l as [|a l IH]; intros i Hi; [done|].
  destruct i as [|i]; simpl in *.
  - injection Hi as ->. rewrite !filter_cons.
    destruct (decide (P x)), (decide (P y)); simpl; (split; [intros [? ?]|]; intros; tauto || lia).
  - destruct (IH i Hi) as [IH1 IH2]. rewrite !filter_cons.
    destruct (decide (P a)); simpl; split; intros; auto using f_equal.
Qed.

Section Bound.
Variable llm : LLM.

Lemma step_canCall q p w p' w' :
  step llm q p w = Some (p', w') →
  (llmCalls w' = llmCalls w ∧ (canCall p' = true → canCall p = true)) ∨
  (llmCalls w' = llmCalls w ++ [q] ∧ canCall p = true ∧ canCall p' = false).
Proof.
  destruct p; simpl; unfold lockThen, unlockThen, closeThen, register;
    repeat case_match; intros; simplify_eq; simpl; auto.
Qed.

Lemma bounded_exec1 q c e : bounded q c → bounded q (exec1 llm c e).
Proof.
  unfold bounded. intros Hb.
  destruct (exec1_cases llm c e)
    as [->|[(d & _ & _ & ->)|(i & q' & p & p' & w' & _ & Hi & Hstep & ->)]];
    [done | done |]. simpl.
  unfold requestsFor, pendingFor, callsFor in *.
  destruct (filter_insert_length (λ g : gostring * pc, g.1 = q) _ i _ (q', p') Hi)
    as [Hreq _].
  rewrite Hreq by done.
  destruct (filter_insert_length
              (λ g : gostring * pc, g.1 = q ∧ canCall g.2 = true) _ i _ (q', p') Hi)
    as [Hsame Hless]. simpl in Hsame, Hless.
  destruct (step_canCall _ _ _ _ _ Hstep) as [[-> Hkeep]|(-> & Hp & Hp')].
  - destruct (decide (q' = q ∧ canCall p' = true)) as [[Hq Hc]|Hno].
    + rewrite Hsame; [done|]. split; intros _; auto.
    + destruct (decide (q' = q ∧ canCall p = true)) as [Hyes|Hno'].
      * specialize (Hless Hyes Hno). lia.
      * rewrite Hsame; [done|]. tauto.
  - rewrite filter_app, length_app, filter_cons, filter_nil.
    destruct (decide (q' = q)) as [Hq|Hne]; simpl.
    + assert (¬ (q' = q ∧ canCall p' = true)) as Hno by (rewrite Hp'; intros [_ ?]; done).
      specialize (Hless (conj Hq Hp) Hno). lia.
    + rewrite Hsame; [lia|]. tauto.
Qed.

Lemma bounded_exec q sched c : bounded q c → bounded q (exec llm sched c).
Proof.
  revert c. induction sched as [|e sched IH]; intros c Hb; [done|].
  simpl. apply IH. by apply bounded_exec1.
Qed.

Lemma requestsFor_spawn q qs :
  requestsFor q (spawn qs) = length (filter (λ k, k = q) qs).
Proof.
  unfold requestsFor, spawn. induction qs as [|k qs IH]; [done|]. simpl.
  rewrite !filter_cons. simpl. case_decide; simpl; by rewrite IH.
Qed.

Lemma requestsFor_exec1 q c e :
  requestsFor q (goroutines (exec1 llm c e)) = requestsFor q (goroutines c).
Proof.
  destruct (exec1_cases llm c e)
    as [->|[(d & _ & _ & ->)|(i & q' & p & p' & w' & _ & Hi & Hstep & ->)]];
    [done | done |]. simpl. unfold requestsFor.
  by apply (filter_insert_length (λ g : gostring * pc, g.1 = q) _ i _ (q', p') Hi).
Qed.

Lemma requestsFor_exec q sched c :
  requestsFor q (goroutines (exec llm sched c)) = requestsFor q (goroutines c).
Proof.
  revert c. induction sched as [|e sched IH]; intros c; [done|].
  simpl. by rewrite IH, requestsFor_exec1.
Qed.

(** X17: [getLLMResponse] is called for a key at most as many times as
    [getOrCreateLLMRequest] was called for it: in every configuration
    reachable from an empty world, the recorded calls for [q] are no more
    than the requests for [q], and no request for another key adds to
    them. *)
Theorem calls_bounded_by_requests t qs sched q :
  (callsFor q (llmCalls (world (exec llm sched (initial t qs))))
   ≤ length (filter (λ k, k = q) qs))%nat.
Proof.
  pose proof (bounded_exec q sched (initial t qs)) as Hb.
  unfold bounded in Hb. rewrite requestsFor_exec in Hb. simpl in Hb.
  rewrite requestsFor_spawn in Hb.
  assert (callsFor q [] + pendingFor q (spawn qs) ≤ length (filter (λ k, k = q) qs))%nat.
  { simpl. unfold pendingFor. clear Hb. induction qs as [|k qs IH]; [done|]. simpl.
    rewrite !filter_cons. simpl.
    destruct (decide (k = q)) as [->|Hne].
    - rewrite decide_True by done. simpl in *. lia.
    - rewrite decide_False by (intros [? _]; done). lia. }
  specialize (Hb ltac:(done)). lia.
Qed.
End Bound.

(** ** Progress *)

Lemma live_initial t qs : live (initial t qs).
Proof.
  split; simpl.
  - done.
  - intros q ch H. by rewrite lookup_empty in H.
  - intros i q p ch Hi. apply spawn_lookup in Hi as ->. by intros [|].
Qed.

Section Live.
Variable llm : LLM.

Lemma owner_step c i q p p' w' ch :
  wf c → goroutines c !! i = Some (q, p) →
  step llm q p (world c) = Some (p', w') →
  ch ∈ closed (world c) ∨ ownerOf c ch →
  ch ∈ closed w' ∨
  ownerOf {| world := w'; goroutines := <[i := (q, p')]> (goroutines c) |} ch.
Proof.
  intros Hwf Hi Hstep [Hclosed|(j & qj & pj & Hj & Hown)].
  { left. by apply (step_registry llm _ _ _ _ _ Hstep). }
  destruct (decide (j = i)) as [->|Hne].
  2:{ right. exists j, qj, pj. split; [|done]. simpl. by rewrite list_lookup_insert_ne. }
  rewrite Hi in Hj. injection Hj as <- <-.
  pose proof (wf_lock c Hwf i q p Hi) as Hlock.
  pose proof (wf_open c Hwf i q p ch Hi Hown) as Hopen.
  assert (∀ p1, owns p1 ch →
            ownerOf {| world := w'; goroutines := <[i := (q, p1)]> (goroutines c) |} ch)
    as Hstay.
  { intros p1 Hp1. exists i, q, p1. split; [|done]. simpl. by eapply lookup_updated. }
  destruct p; simpl in Hown; try done; subst; simpl in Hstep;
    unfold lockThen, unlockThen in Hstep;
    try rewrite (closeThen_open _ _ _ Hopen) in Hstep;
    try rewrite (Hlock I) in Hstep;
    repeat case_match; simplify_eq; try (right; by apply Hstay).
  all: left; simpl; set_solver.
Qed.

Lemma live_step c i q p p' w' :
  wf c → live c → goroutines c !! i = Some (q, p) →
  step llm q p (world c) = Some (p', w') →
  live {| world := w'; goroutines := <[i := (q, p')]> (goroutines c) |}.
Proof.
  intros Hwf [Hlock Hslot Hwait] Hi Hstep.
  pose proof (λ ch, owner_step c i q p p' w' ch Hwf Hi Hstep) as Hown.
  split; simpl.
  - (* the mutex has a holder *)
    intros Hlocked.
    assert (inCS p' ∨ (inFlightLocked (world c) = true ∧ ¬ inCS p)) as [Hin|[Hwas Hnot]].
    { destruct p; simpl in Hstep; unfold lockThen, unlockThen, closeThen, register in Hstep;
        repeat case_match; simplify_eq; simpl in *; try done;
        try (by left); try congruence; right; tauto. }
    { exists i, q, p'. split; [by eapply lookup_updated | done]. }
    destruct (Hlock Hwas) as (j & qj & pj & Hj & Hcs).
    exists j, qj, pj. split; [|done].
    rewrite list_lookup_insert_ne; [done|]. intros ->. rewrite Hi in Hj. by simplify_eq.
  - (* a slot holds a closed channel or one with an owner *)
    intros k ch Hk.
    destruct (step_registry llm _ _ _ _ _ Hstep)
      as [_ [Hreg|[[-> Hreg]|[(ch' & r & ->) Hreg]]]]; rewrite Hreg in Hk.
    + apply Hown. by eapply Hslot.
    + apply lookup_insert_Some in Hk as [[<- <-]|[_ Hk]].
      * right. simpl in Hstep. injection Hstep as <- <-.
        exists i, q, (L157 (nextChan (world c))). split; [by eapply lookup_updated | done].
      * apply Hown. by eapply Hslot.
    + apply lookup_delete_Some in Hk as [_ Hk]. apply Hown. by eapply Hslot.
  - (* a waiter's channel is closed or has an owner *)
    intros j qj pj ch Hj Hpj. apply lookup_update in Hj as [[-> [= -> ->]]|[Hne Hj]].
    + destruct Hpj as [->| ->].
      * destruct p; simpl in Hstep; unfold lockThen, unlockThen, closeThen, register in Hstep;
          repeat case_match; simplify_eq.
        apply Hown. by eapply Hslot.
      * destruct p; simpl in Hstep; unfold lockThen, unlockThen, closeThen, register in Hstep;
          repeat case_match; simplify_eq.
        apply Hown. eapply Hwait; [done | by left].
    + apply Hown. by eapply Hwait.
Qed.

Lemma live_exec1 c e : wf c → live c → live (exec1 llm c e).
Proof.
  intros Hwf Hl.
  destruct (exec1_cases llm c e)
    as [->|[(d & _ & _ & ->)|(i & q & p & p' & w' & _ & Hi & Hstep & ->)]].
  - done.
  - destruct Hl. by split.
  - by eapply live_step.
Qed.

Lemma live_exec sched c : wf c → live c → live (exec llm sched c).
Proof.
  revert c. induction sched as [|e sched IH]; intros c Hwf Hl; [done|].
  simpl. apply IH; [by apply wf_exec1 | by apply live_exec1].
Qed.
Lemma inCS_enabled q p w :
  inCS p → ∃ p' w', step llm q p w = Some (p', w').
Proof.
  destruct p; simpl; try done; intros _;
    unfold unlockThen, register; repeat case_match; eauto.
Qed.

Lemma owner_enabled q p ch w :
  owns p ch → inFlightLocked w = false → ∃ p' w', step llm q p w = Some (p', w').
Proof.
  destruct p; simpl; try done; intros _ Hfree;
    unfold unlockThen, lockThen, closeThen; rewrite ?Hfree; repeat case_match; eauto.
Qed.

(** A goroutine that cannot move waits for the mutex or for a channel. *)
Lemma step_None q p w :
  step llm q p w = None →
  finished p = true ∨ inFlightLocked w = true ∨ ∃ ch, p = L146 ch ∧ ch ∉ closed w.
Proof.
  destruct p; simpl; unfold unlockThen, lockThen, closeThen, register;
    repeat case_match; intros; simplify_eq; eauto.
Qed.

Lemma enabled_somewhere c i q p :
  wf c → live c → goroutines c !! i = Some (q, p) → finished p = false →
  ∃ j qj pj p' w',
    goroutines c !! j = Some (qj, pj) ∧ step llm qj pj (world c) = Some (p', w').
Proof.
  intros Hwf Hl Hi Hrun.
  assert (inFlightLocked (world c) = true →
          ∃ j qj pj p' w', goroutines c !! j = Some (qj, pj) ∧
                           step llm qj pj (world c) = Some (p', w')) as Hheld.
  { intros Hlocked. destruct (live_lock c Hl Hlocked) as (j & qj & pj & Hj & Hcs).
    destruct (inCS_enabled qj pj (world c) Hcs) as (p' & w' & Hstep).
    by exists j, qj, pj, p', w'. }
  destruct (step llm q p (world c)) as [[p' w']|] eqn:Hstep.
  { by exists i, q, p, p', w'. }
  apply step_None in Hstep as [Hfin|[Hlocked|(ch & -> & Hopen)]].
  - congruence.
  - by apply Hheld.
  - destruct (live_wait c Hl i q (L146 ch) ch Hi) as [?|(j & qj & pj & Hj & Hown)];
      [by right | done |].
    destruct (inFlightLocked (world c)) eqn:Hlocked; [by apply Hheld|].
    destruct (owner_enabled qj pj ch (world c) Hown Hlocked) as (p' & w' & Hstep).
    by exists j, qj, pj, p', w'.
Qed.

Lemma step_rank q p w p' w' :
  step llm q p w = Some (p', w') → (rank p' < rank p)%nat.
Proof.
  destruct p; simpl; unfold unlockThen, lockThen, closeThen, register;
    repeat case_match; intros; simplify_eq; simpl; lia.
Qed.

Lemma remaining_insert gs i q p p' :
  gs !! i = Some (q, p) → (rank p' < rank p)%nat →
  (remaining (<[i := (q, p')]> gs) < remaining gs)%nat.
Proof.
  unfold remaining. revert i. induction gs as [|g gs IH]; intros [|i] Hi Hlt; simplify_eq/=.
  - lia.
  - specialize (IH i Hi Hlt). lia.
Qed.

Lemma remaining_exec1 c e :
  (remaining (goroutines (exec1 llm c e)) ≤ remaining (goroutines c))%nat.
Proof.
  destruct (exec1_cases llm c e)
    as [->|[(d & _ & _ & ->)|(i & q & p & p' & w' & _ & Hi & Hstep & ->)]]; simpl.
  - lia.
  - lia.
  - apply Nat.lt_le_incl. eapply remaining_insert; [done|]. by eapply step_rank.
Qed.

Lemma remaining_exec sched c :
  (remaining (goroutines (exec llm sched c)) ≤ remaining (goroutines c))%nat.
Proof.
  revert c. induction sched as [|e sched IH]; intros c; simpl; [lia|].
  etrans; [apply IH | apply remaining_exec1].
Qed.

Lemma remaining_spawn qs : remaining (spawn qs) = (11 * length qs)%nat.
Proof.
  unfold remaining, spawn. induction qs as [|q qs IH]; [done|].
  change (sum_list ((λ g : gostring * pc, rank g.2) <$> map (λ q, (q, L134)) (q :: qs)))
    with (11 + sum_list ((λ g : gostring * pc, rank g.2) <$> map (λ q, (q, L134)) qs))%nat.
  rewrite IH. change (length (q :: qs)) with (S (length qs)). lia.
Qed.

Lemma all_finished_or_running (gs : list (gostring * pc)) :
  Forall (λ g, finished g.2 = true) gs ∨
  ∃ i q p, gs !! i = Some (q, p) ∧ finished p = false.
Proof.
  induction gs as [|[q p] gs [IH|(i & q' & p' & Hi & Hp)]].
  - left. constructor.
  - destruct (finished p) eqn:Hp.
    + left. by constructor.
    + right. by exists 0%nat, q, p.
  - right. by exists (S i), q', p'.
Qed.

(** From a well-formed live configuration a schedule of at most
    [remaining] events brings every goroutine to its end. *)
Lemma run_to_end n c :
  wf c → live c → (remaining (goroutines c) ≤ n)%nat →
  ∃ rest, (length rest ≤ n)%nat ∧
          Forall (λ g, finished g.2 = true) (goroutines (exec llm rest c)).
Proof.
  revert c. induction n as [|n IH]; intros c Hwf Hl Hn.
  - exists []. split; [done|]. simpl.
    destruct (all_finished_or_running (goroutines c)) as [|(i & q & p & Hi & Hp)]; [done|].
    destruct (enabled_somewhere c i q p Hwf Hl Hi Hp) as (j & qj & pj & p' & w' & Hj & Hstep).
    pose proof (remaining_insert _ _ _ _ p' Hj (step_rank _ _ _ _ _ Hstep)). lia.
  - destruct (all_finished_or_running (goroutines c)) as [|(i & q & p & Hi & Hp)].
    { exists []. split; [simpl; lia | done]. }
    destruct (enabled_somewhere c i q p Hwf Hl Hi Hp) as (j & qj & pj & p' & w' & Hj & Hstep).
    assert (exec1 llm c (Run j) =
            {| world := w'; goroutines := <[j := (qj, p')]> (goroutines c) |}) as Hrun.
    { simpl. by rewrite Hj, Hstep. }
    destruct (IH (exec1 llm c (Run j))) as (rest & Hlen & Hall).
    + by apply wf_exec1.
    + by apply live_exec1.
    + rewrite Hrun. simpl.
      pose proof (remaining_insert _ _ _ _ p' Hj (step_rank _ _ _ _ _ Hstep)). lia.
    + exists (Run j :: rest). split; [simpl; lia | done].
Qed.


(** X19: every call can return.  From every configuration reachable from
    an empty world there is a continuation of at most 11 events per call
    after which all the calls have returned (none has panicked and none is
    left waiting), whatever the remote service answers. *)
Theorem all_can_return t qs sched :
  ∃ rest,
    (length rest ≤ 11 * length qs)%nat ∧
    Forall (λ g, returned g.2 = true)
           (goroutines (exec llm (sched ++ rest) (initial t qs))).
Proof.
  pose proof (wf_reachable llm t qs sched) as Hwf.
  destruct (run_to_end (11 * length qs) (exec llm sched (initial t qs)) Hwf)
    as (rest & Hlen & Hall).
  { apply live_exec; [apply (wf_reachable llm t qs []) | apply live_initial]. }
  { etrans; [apply remaining_exec|]. simpl. by rewrite remaining_spawn. }
  exists rest. split; [done|].
  unfold exec in *. rewrite fold_left_app.
  pose proof (wf_reachable llm t qs (sched ++ rest)) as Hwf'.
  unfold exec in Hwf'. rewrite fold_left_app in Hwf'.
  apply Forall_lookup. intros k [qk pk] Hk. simpl.
  pose proof (wf_nopanic _ Hwf' _ _ _ Hk) as Hnp.
  rewrite Forall_lookup in Hall. specialize (Hall k _ Hk). simpl in Hall.
  by destruct pk.
Qed.
End Live.


(** ** What the registry holds *)

Lemma released_owns p ch : released p ch → owns p ch.
Proof. by destruct p. Qed.

Section Blame.
Variable llm : LLM.

Lemma blame_initial t qs : blame llm (initial t qs).
Proof.
  split; simpl.
  - intros q ch H. by rewrite lookup_empty in H.
  - intros q ch i q' p H. by rewrite lookup_empty in H.
  - intros q i q' p ch _ _. by rewrite lookup_empty.
  - intros i q ch e Hi. by apply spawn_lookup in Hi.
  - intros q ch [H _]. simpl in H. by rewrite lookup_empty in H.
Qed.

Lemma blame_step c i q p p' w' :
  wf c → blame llm c → goroutines c !! i = Some (q, p) →
  step llm q p (world c) = Some (p', w') →
  blame llm {| world := w'; goroutines := <[i := (q, p')]> (goroutines c) |}.
Proof.
  intros Hwf [Hfresh Hkey Hrel Hfail Hpois] Hi Hstep.
  pose proof (wf_fresh c Hwf) as Hwfresh.
  pose proof (wf_closed c Hwf) as Hwclosed.
  pose proof (wf_slot c Hwf) as Hwslot.
  pose proof (wf_open c Hwf) as Hwopen.
  unfold poisoned in *.
  destruct p; simpl in Hstep; unfold lockThen, unlockThen, closeThen, register in Hstep;
    repeat case_match; simplify_eq.
  all: split; unfold poisoned; simpl; intros; split_lookups; simpl in *; simplify_eq; eauto.
  all: try (by eauto using refused_mono).
  all: try (by (eapply Hkey; [eassumption | exact Hi | done])).
  all: try (by (edestruct Hpois as [? ?]; eauto using refused_mono)).
  all: try match goal with |- _ ≠ _ => intros ? end.
  all: try match goal with H : _ ∧ _ ∈ _ |- _ => destruct H as [? ?] end.
  all: repeat match goal with
       | H : <[_ := _]> _ !! _ = Some _ |- _ =>
         apply lookup_insert_Some in H as [[? ?]|[? H]]; simplify_eq
       | H : delete _ _ !! _ = Some _ |- _ => apply lookup_delete_Some in H as [? H]
       | H : _ ∈ {[_]} ∪ _ |- _ =>
         apply elem_of_union in H as [H%elem_of_singleton|H]; simplify_eq
       end.
  all: try done.
  all: try (by eauto).
  all: try (by (eapply Hkey; [eassumption | exact Hi | done])).
  all: try (by (eapply Hkey; eauto)).
  all: try (by (eapply Hrel; eauto)).
  all: try (by (eapply Hrel; [exact Hi | done | eassumption])).
  all: try (by (eapply Hfail; eauto)).
  all: try (by (eapply Hpois; eauto)).
  all: try (exfalso; by (eapply Hrel; [exact Hi | done | eassumption])).
  all: try (by (match goal with H : inFlightRequests _ !! _ = Some _ |- _ =>
                  apply Hfresh in H end; lia)).
  all: try (by (match goal with H : _ ∈ closed _ |- _ => apply Hwclosed in H end; lia)).
  all: try (by (match goal with
                | H : goroutines _ !! _ = Some (_, ?p), H' : owns ?p _ |- _ =>
                  pose proof (Hwfresh _ _ _ _ H H')
                | H : goroutines _ !! _ = Some (_, ?p), H' : released ?p _ |- _ =>
                  pose proof (Hwfresh _ _ _ _ H (released_owns _ _ H'))
                end; lia)).
  - exists (length (llmCalls (world c))). eexists.
    split; [apply list_lookup_middle; done | eassumption].
  - match goal with H : inFlightRequests _ !! ?k = Some _ |- _ =>
      assert (k = q) as -> by (eapply Hkey; [exact H | exact Hi | done]) end.
    eexists. eapply Hfail, Hi.
  - match goal with H : _ ≠ _ |- _ => apply H end. symmetry.
    eapply Hkey; [eassumption | exact Hi | done].
Qed.

Lemma blame_exec1 c e : wf c → blame llm c → blame llm (exec1 llm c e).
Proof.
  intros Hwf Hb.
  destruct (exec1_cases llm c e)
    as [->|[(d & _ & _ & ->)|(i & q & p & p' & w' & _ & Hi & Hstep & ->)]].
  - done.
  - destruct Hb. by split.
  - by eapply blame_step.
Qed.

Lemma blame_exec sched c : wf c → blame llm c → blame llm (exec llm sched c).
Proof.
  revert c. induction sched as [|e sched IH]; intros c Hwf Hb; [done|].
  simpl. apply IH; [by apply wf_exec1 | by apply blame_exec1].
Qed.

(** X20: a stale slot comes from a failure only.  In every configuration
    reachable from an empty world, if the registry holds a closed channel
    for a key, then a recorded call of [getLLMResponse] for that key
    returned an error: the success path never leaves a closed channel in
    the registry, whatever the interleaving. *)
Theorem stale_slot_means_failure t qs sched q ch :
  poisoned q ch (exec llm sched (initial t qs)) →
  ∃ e, refused llm (llmCalls (world (exec llm sched (initial t qs)))) q e.
Proof.
  apply blame_poisoned, blame_exec; [apply (wf_reachable llm t qs []) | apply blame_initial].
Qed.
End Blame.

Lemma stale_slot_means_failure_witness :
  ∃ e, refused failThenAnswer
         (llmCalls (world (exec failThenAnswer (repeat (Run 0) 7) (initial 0 [golit "q"]))))
         (golit "q") e.
Proof.
  apply (stale_slot_means_failure failThenAnswer 0 [golit "q"] (repeat (Run 0) 7)
           (golit "q") 0%nat).
  apply (leader_fails_poisoned []).
Defined.

(** ** The world at rest *)

Section Quiescent.
Variable llm : LLM.

Lemma call_returns_quiescent (llm2 : LLM) q w :
  quiescent w → ∃ r e w', getOrCreateLLMRequest llm2 q w = Returned r e w'.
Proof.
  intros (Hfree & Hslots & Hfresh).
  destruct (getCache_cases q w) as [(e & _ & _ & Hhit)|Hmiss].
  { rewrite (call_hit _ _ _ _ Hhit). eauto. }
  destruct (inFlightRequests w !! q) as [ch|] eqn:Hslot.
  { rewrite (call_follow _ _ _ ch) by done.
    destruct (decide _) as [|Hopen]; [eauto|]. exfalso. apply Hopen. by eapply Hslots. }
  rewrite call_lead by done. destruct (llm2 _ _) as [r [e|]]; eauto.
Qed.

Lemma returned_quiescent c :
  wf c → live c → Forall (λ g, returned g.2 = true) (goroutines c) →
  quiescent (world c).
Proof.
  intros Hwf Hl Hall. rewrite Forall_lookup in Hall.
  assert (∀ ch, ¬ ownerOf c ch) as Hnone.
  { intros ch (j & q & p & Hj & Hown). specialize (Hall j _ Hj). by destruct p. }
  split; [|split].
  - destruct (inFlightLocked (world c)) eqn:Hlocked; [|done].
    destruct (live_lock c Hl Hlocked) as (j & q & p & Hj & Hcs).
    specialize (Hall j _ Hj). by destruct p.
  - intros q ch Hslot. destruct (live_slot c Hl q ch Hslot) as [|Hown]; [done|].
    by destruct (Hnone ch).
  - intros Hin. apply (wf_closed c Hwf) in Hin. lia.
Qed.

(** X21: the registry leaks on failure only.  When every call has
    returned, a key that still has a slot in the registry is a key for
    which a recorded call of [getLLMResponse] returned an error. *)
Theorem leftover_slot_means_failure t qs sched q ch :
  Forall (λ g, returned g.2 = true) (goroutines (exec llm sched (initial t qs))) →
  inFlightRequests (world (exec llm sched (initial t qs))) !! q = Some ch →
  ∃ e, refused llm (llmCalls (world (exec llm sched (initial t qs)))) q e.
Proof.
  intros Hall Hslot.
  pose proof (wf_reachable llm t qs sched) as Hwf.
  assert (live (exec llm sched (initial t qs))) as Hl.
  { apply live_exec; [apply (wf_reachable llm t qs []) | apply live_initial]. }
  destruct (returned_quiescent _ Hwf Hl Hall) as (_ & Hslots & _).
  eapply (blame_poisoned llm).
  - apply blame_exec; [apply (wf_reachable llm t qs []) | apply blame_initial].
  - split; [exact Hslot | by eapply Hslots].
Qed.

(** X22: once every call of [getOrCreateLLMRequest] has returned, the
    world is at rest: the mutex is free, every channel of the registry is
    closed and the next channel to be made is not.  A request handled
    then, with a remote service whose call returns (an answer or an
    error), has a reply written: [handleDNSRequest] does not wait for the
    mutex or for a channel, and does not panic.  (A call of
    [getLLMResponse] that never returns is outside the model, where the
    remote service is a function.) *)
Theorem handleDNSRequest_replies_when_idle t qs sched (llm2 : LLM) (r : dns.Msg) :
  Forall (λ g, returned g.2 = true) (goroutines (exec llm sched (initial t qs))) →
  quiescent (world (exec llm sched (initial t qs))) ∧
  ∃ m w', handleDNSRequest llm2 r (world (exec llm sched (initial t qs))) = Wrote m w'.
Proof.
  intros Hall.
  pose proof (wf_reachable llm t qs sched) as Hwf.
  assert (live (exec llm sched (initial t qs))) as Hl.
  { apply live_exec; [apply (wf_reachable llm t qs []) | apply live_initial]. }
  pose proof (returned_quiescent _ Hwf Hl Hall) as Hq. split; [done|].
  destruct (handle_cases llm2 r (world (exec llm sched (initial t qs))))
    as [[_ ->]|[(q & rest & _ & _ & ->)|(q & rest & _ & _ & Hcall)]]; [eauto | eauto |].
  destruct (call_returns_quiescent llm2 (dns.Name q) _ Hq) as (resp & e & w' & Hret).
  rewrite Hret in Hcall. destruct e; rewrite Hcall; eauto.
Qed.
End Quiescent.

Lemma leftover_slot_means_failure_witness :
  ∃ e, refused failThenAnswer
         (llmCalls (world (exec failThenAnswer (repeat (Run 0) 7) (initial 0 [golit "q"]))))
         (golit "q") e.
Proof.
  apply (leftover_slot_means_failure failThenAnswer 0 [golit "q"] (repeat (Run 0) 7)
           (golit "q") 0%nat).
  - vm_compute. repeat constructor.
  - apply (leader_fails_poisoned []).
Defined.

Lemma handleDNSRequest_replies_when_idle_witness :
  quiescent (world (exec failThenAnswer (repeat (Run 0) 7) (initial 0 [golit "q"]))) ∧
  ∃ m w',
    handleDNSRequest alwaysAnswer (txtQuery (golit "q"))
      (world (exec failThenAnswer (repeat (Run 0) 7) (initial 0 [golit "q"])))
    = Wrote m w'.
Proof.
  apply (handleDNSRequest_replies_when_idle failThenAnswer 0 [golit "q"]
           (repeat (Run 0) 7) alwaysAnswer (txtQuery (golit "q"))).
  vm_compute. repeat constructor.
Defined.
